(** * RoleFit analyzer: the tools and wiring of [rolefit_analyzer_agent/agent.py]

    A shallow embedding of the two function tools ([read_pdf] and
    [search_memory]), of the agent tree with its shared retry options and
    of the session set-up of [main], followed by the properties of the
    specification that concern them.

    Conventions of the embedding:
    - a Python [str] is a list of characters ([list ascii], code points
      below 256); offsets and the integer arguments are [Z], so that the
      sentinel [-1] of [str.find] and negative arguments are represented;
    - the session state is an insertion-ordered dictionary, an association
      list whose keys are unique: assignment replaces in place or appends;
    - the tools mutate the state held by their [ToolContext]; here they
      return the state after the call next to their result;
    - [print] calls write to the console only and are left out. *)

From Stdlib Require Import ZArith Ascii String Lia.
From stdpp Require Import base option list strings.

Local Open Scope Z_scope.

(** ** Python strings *)

Module Py.

Definition str := list ascii.

(** A string literal. *)
Definition lit (s : string) : str := list_ascii_of_string s.

(** [len(s)]. *)
Definition len (s : str) : Z := Z.of_nat (length s).

(** How a slice bound is read against a sequence of length [n]: a negative
    bound counts from the end, and the result is clamped to [0 .. n]. *)
Definition norm_index (n i : Z) : Z :=
  if i <? 0 then Z.max 0 (i + n) else Z.min i n.

(** [s[lo:hi]]. *)
Definition slice (s : str) (lo hi : Z) : str :=
  let l := norm_index (len s) lo in
  let h := norm_index (len s) hi in
  take (Z.to_nat (h - l)) (drop (Z.to_nat l) s).

(** [t.startswith(q)]. *)
Fixpoint startswith (q t : str) : bool :=
  match q, t with
  | [], _ => true
  | _ :: _, [] => false
  | c :: q', d :: t' => if decide (c = d) then startswith q' t' else false
  end.

(** The scan of [str.find]: [t] is the text from offset [i] on. *)
Fixpoint find_at (q t : str) (i : Z) : Z :=
  if startswith q t then i
  else match t with
       | [] => -1
       | _ :: t' => find_at q t' (i + 1)
       end.

(** [text.find(q, start)]: the lowest offset at or after [start] where [q]
    occurs, [-1] when there is none; [start] is read as a slice bound and a
    [start] beyond the end finds nothing. *)
Definition find (text q : str) (start : Z) : Z :=
  if len text <? start then -1
  else
    let st := norm_index (len text) start in
    find_at q (drop (Z.to_nat st) text) st.

(** [sub in s]. *)
Definition contains (sub s : str) : bool := negb (find s sub 0 =? -1).

(** [c.isspace()] on code points below 256. *)
Definition isspace (c : ascii) : bool :=
  let n := Z.of_nat (nat_of_ascii c) in
  ((9 <=? n) && (n <=? 13)) || ((28 <=? n) && (n <=? 32))
  || (n =? 133) || (n =? 160).

(** [c.lower()] on code points below 256. *)
Definition lower_char (c : ascii) : ascii :=
  let n := Z.of_nat (nat_of_ascii c) in
  if ((65 <=? n) && (n <=? 90))
     || ((192 <=? n) && (n <=? 222) && negb (n =? 215))
  then ascii_of_nat (Z.to_nat (n + 32)) else c.

Definition lower (s : str) : str := map lower_char s.

Fixpoint lstrip (s : str) : str :=
  match s with
  | [] => []
  | c :: s' => if isspace c then lstrip s' else s
  end.

Definition rstrip (s : str) : str := reverse (lstrip (reverse s)).

(** [s.strip()]. *)
Definition strip (s : str) : str := rstrip (lstrip s).

(** [s.split()]: the maximal runs of non-space characters. [cur] is the run
    being read, last character first. *)
Fixpoint split_from (cur s : str) : list str :=
  match s with
  | [] => match cur with [] => [] | _ => [reverse cur] end
  | c :: s' =>
      if isspace c
      then match cur with
           | [] => split_from [] s'
           | _ => reverse cur :: split_from [] s'
           end
      else split_from (c :: cur) s'
  end.

Definition split (s : str) : list str := split_from [] s.

(** [sep.join(parts)]. *)
Fixpoint join (sep : str) (parts : list str) : str :=
  match parts with
  | [] => []
  | [p] => p
  | p :: rest => p ++ sep ++ join sep rest
  end.

(** [a or b] on an argument that may be [None]: [None] and the empty string
    are both falsy. *)
Definition or_str (a : option str) (b : str) : str :=
  match a with
  | Some (c :: s) => c :: s
  | _ => b
  end.

End Py.

Import Py.

(** ** Session state *)

(** The values a state entry can hold; [isinstance(v, str)] tells [VStr]
    from the rest. *)
Inductive value :=
  | VStr (s : str)
  | VInt (n : Z)
  | VBool (b : bool)
  | VNone.

Definition is_str (v : value) : bool :=
  match v with VStr _ => true | _ => false end.

Definition dict := list (str * value).

(** [d.get(k)]. *)
Fixpoint dict_get (d : dict) (k : str) : option value :=
  match d with
  | [] => None
  | (k', v) :: d' => if decide (k' = k) then Some v else dict_get d' k
  end.

(** [d[k] = v]: an existing key keeps its position, a new one goes last. *)
Fixpoint dict_set (d : dict) (k : str) (v : value) : dict :=
  match d with
  | [] => [(k, v)]
  | (k', v') :: d' =>
      if decide (k' = k) then (k, v) :: d' else (k', v') :: dict_set d' k v
  end.

Record ToolContext := { state : dict }.

(** ** [search_memory] *)

Record Snippet := { snip_text : str; snip_start : Z; snip_end : Z }.

Record Match := { memory_key : str; snippets : list Snippet }.

Inductive SearchResult :=
  | SearchError (error_message : str)
  | SearchSuccess (query : str) (matches : list Match).

Definition search_status (r : SearchResult) : str :=
  match r with
  | SearchError _ => lit "error"
  | SearchSuccess _ _ => lit "success"
  end.

(** The [while True] loop over one text. Each unit of [fuel] pays for one
    iteration; [None] means the fuel ran out before the loop left. *)
Fixpoint scan (fuel : nat) (text q : str) (max_snippets snippet_radius : Z)
    (start found_count : Z) (acc : list Snippet) : option (list Snippet) :=
  match fuel with
  | O => None
  | S fuel' =>
      let idx := find text q start in
      if idx =? -1 then Some acc
      else
        let s := Z.max 0 (idx - snippet_radius) in
        let e := Z.min (len text) (idx + len q + snippet_radius) in
        let snippet := slice text s e in
        let acc :=
          acc ++ [{| snip_text := snippet; snip_start := idx;
                     snip_end := idx + len q |}] in
        let found_count := found_count + 1 in
        if found_count >=? max_snippets then Some acc
        else scan fuel' text q max_snippets snippet_radius
                  (idx + len q) found_count acc
  end.

(** The loop runs at most once per offset of the text, and once more to see
    that nothing is left. *)
Definition scan_fuel (text : str) : nat := S (length text).

(** The [for key in keys_to_search] loop. *)
Fixpoint search_keys (st : dict) (q : str) (max_snippets snippet_radius : Z)
    (keys : list str) (matches : list Match) : option (list Match) :=
  match keys with
  | [] => Some matches
  | key :: rest =>
      match default (VStr []) (dict_get st key) with
      | VStr (c :: t) =>
          let text := c :: t in
          found ← scan (scan_fuel text) text q max_snippets snippet_radius
                       0 0 [];
          search_keys st q max_snippets snippet_radius rest
            (match found with
             | [] => matches
             | _ => matches ++ [{| memory_key := key; snippets := found |}]
             end)
      | _ => search_keys st q max_snippets snippet_radius rest matches
      end
  end.

(** [[k for k, v in state.items() if isinstance(v, str)]]. *)
Definition text_keys (st : dict) : list str :=
  fst <$> filter (λ kv, is_str (snd kv) = true) st.

(** [memory_keys or <default>]: [None] and the empty list are both falsy. *)
Definition keys_to_search (memory_keys : option (list str)) (st : dict)
    : list str :=
  match memory_keys with
  | Some (k :: ks) => k :: ks
  | _ => text_keys st
  end.

Definition search_memory (query : option str)
    (memory_keys : option (list str)) (max_snippets snippet_radius : Z)
    (tool_context : option ToolContext) : option SearchResult :=
  match tool_context with
  | None => Some (SearchError (lit "Session context missing"))
  | Some ctx =>
      match strip (or_str query []) with
      | [] => Some (SearchError (lit "Query string is empty"))
      | c :: q' =>
          let q := c :: q' in
          matches ← search_keys (state ctx) q max_snippets snippet_radius
                                (keys_to_search memory_keys (state ctx)) [];
          Some (SearchSuccess q matches)
      end
  end.

(** ** [read_pdf] *)

Definition CV_MEMORY_KEY : str := lit "pdf_resume_text".
Definition JD_MEMORY_KEY : str := lit "job_description_text".

Definition newline : str := ["010"%char].

(** The marker appended to a truncated text, ["\n...[TRUNCATED]"]. *)
Definition TRUNCATED : str := newline ++ lit "...[TRUNCATED]".

(** What opening a file and reading its pages with the PDF library gives:
    an exception, named by its type, or the text of every page
    ([extract_text] may return [None]). *)
Inductive extraction :=
  | Raises (exception : str)
  | Pages (texts : list (option str)).

(** The file system and the PDF library, as far as [read_pdf] sees them. *)
Record World := {
  path_exists : str → bool;
  pdf_reader : str → extraction
}.

Inductive ReadResult :=
  | ReadError (error_message : str)
  | ReadNoContext (message : str)
  | ReadSuccess (message : str) (extracted_length : Z).

Definition read_status (r : ReadResult) : str :=
  match r with
  | ReadError _ | ReadNoContext _ => lit "error"
  | ReadSuccess _ _ => lit "success"
  end.

(** [" ".join(text.split())] for every page, the pages joined by a newline
    and the whole stripped. *)
Definition full_content_of (texts : list (option str)) : str :=
  strip (join newline
           (map (λ t, join (lit " ") (split (or_str t []))) texts)).

(** The conditional expression that computes [truncated_content]. *)
Definition truncate (full_content : str) (max_chars : Z) : str :=
  if len full_content >? max_chars
  then slice full_content 0 max_chars ++ TRUNCATED
  else full_content.

(** [any(k in mk for k in ks)]. *)
Definition any_in (ks : list str) (mk : str) : bool :=
  existsb (λ k, contains k mk) ks.

Definition looks_like_cv (mk : str) : bool :=
  any_in [lit "cv"; lit "resume"; lit "candidate"] mk.

Definition looks_like_jd (mk : str) : bool :=
  any_in [lit "job"; lit "jd"; lit "description"] mk.

(** The writes of step 2, in the order of the source. *)
Definition store_text (st : dict) (memory_key content : str) : dict :=
  let st := dict_set st memory_key (VStr content) in
  let mk := lower (or_str (Some memory_key) []) in
  let st := if looks_like_cv mk
            then dict_set st CV_MEMORY_KEY (VStr content) else st in
  if looks_like_jd mk
  then dict_set st JD_MEMORY_KEY (VStr content) else st.

(** The result of the call and the tool context after it. *)
Definition read_pdf (w : World) (file_path memory_key : str) (max_chars : Z)
    (tool_context : option ToolContext) : ReadResult * option ToolContext :=
  if negb (path_exists w file_path)
  then (ReadError (lit "File not found at path: " ++ file_path),
        tool_context)
  else
    match pdf_reader w file_path with
    | Raises e =>
        (ReadError (lit "Failed to read PDF. Internal error: " ++ e),
         tool_context)
    | Pages texts =>
        let full_content := full_content_of texts in
        let truncated_content := truncate full_content max_chars in
        match tool_context with
        | Some ctx =>
            (ReadSuccess
               (lit "PDF text extracted successfully and saved to session memory under key: '"
                  ++ memory_key ++ lit "'.")
               (len truncated_content),
             Some {| state := store_text (state ctx) memory_key
                                         truncated_content |})
        | None =>
            (ReadNoContext
               (lit "Session context missing, content not saved to memory."),
             None)
        end
    end.

(** ** The agents *)

Record HttpRetryOptions := {
  attempts : Z;
  exp_base : Z;
  initial_delay : Z;
  http_status_codes : list Z
}.

Definition retry_config : HttpRetryOptions :=
  {| attempts := 5; exp_base := 7; initial_delay := 1;
     http_status_codes := [429; 500; 503; 504] |}.

(** [Gemini(model=..., retry_options=...)]; the retry options are optional
    in the library. *)
Record Gemini := {
  model_name : string;
  retry_options : option HttpRetryOptions
}.

Inductive Tool := pdf_reader_tool | search_memory_tool.

(** A reasoning agent; its instruction text plays no part here. *)
Record LlmAgent := {
  name : string;
  model : Gemini;
  tools : list Tool;
  output_key : string
}.

#[warning="-register-all"] Inductive Agent :=
  | CapstoneSubAgent (a : LlmAgent)
  | SequentialAgent (agent_name : string) (sub_agents : list Agent)
  | ParallelAgent (agent_name : string) (sub_agents : list Agent).

Definition cv_loader_agent : LlmAgent :=
  {| name := "cv_loader_agent";
     model := {| model_name := "gemini-2.5-flash";
                 retry_options := Some retry_config |};
     tools := [pdf_reader_tool];
     output_key := "cv_loader_result" |}.

Definition jd_loader_agent : LlmAgent :=
  {| name := "jd_loader_agent";
     model := {| model_name := "gemini-2.5-flash";
                 retry_options := Some retry_config |};
     tools := [pdf_reader_tool];
     output_key := "jd_loader_result" |}.

Definition cv_screening_agent : LlmAgent :=
  {| name := "cv_screening_agent";
     model := {| model_name := "gemini-2.5-flash";
                 retry_options := Some retry_config |};
     tools := [search_memory_tool];
     output_key := "cv_screening_result" |}.

Definition talent_matching_agent : LlmAgent :=
  {| name := "talent_matching_agent";
     model := {| model_name := "gemini-2.5-flash";
                 retry_options := Some retry_config |};
     tools := [search_memory_tool];
     output_key := "talent_matching_result" |}.

Definition write_parallel_agent : Agent :=
  ParallelAgent "write_parallel_agent"
    [CapstoneSubAgent cv_loader_agent; CapstoneSubAgent jd_loader_agent].

Definition root_agent : Agent :=
  SequentialAgent "root_agent"
    [write_parallel_agent; CapstoneSubAgent cv_screening_agent;
     CapstoneSubAgent talent_matching_agent].

(** The reasoning agents of a tree, in the order of declaration: the places
    where the external model is called. *)
Fixpoint call_sites (a : Agent) : list LlmAgent :=
  match a with
  | CapstoneSubAgent l => [l]
  | SequentialAgent _ subs | ParallelAgent _ subs =>
      (fix go (l : list Agent) : list LlmAgent :=
         match l with
         | [] => []
         | x :: l' => call_sites x ++ go l'
         end) subs
  end.

(** ** Vocabulary of the properties *)

(** Made of white space only; the empty string is. *)
Definition whitespace_only (s : str) : Prop :=
  Forall (λ c, isspace c = true) s.

(** [sub] is a contiguous part of [s], character for character. *)
Definition occurs_in (sub s : str) : Prop :=
  ∃ pre post, s = pre ++ sub ++ post.

(** The range of [a] lies wholly to the left of the range of [b]. *)
Definition precedes (a b : Snippet) : Prop :=
  snip_start a < snip_start b ∧ snip_end a ≤ snip_start b.

(** Every earlier range of the list precedes every later one. *)
Definition left_to_right (l : list Snippet) : Prop :=
  ∀ (i j : nat) a b,
    (i < j)%nat → l !! i = Some a → l !! j = Some b → precedes a b.

(** The offsets of a snippet lie within a text. *)
Definition in_bounds (text : str) (sn : Snippet) : Prop :=
  0 ≤ snip_start sn ∧ snip_start sn ≤ snip_end sn ∧ snip_end sn ≤ len text.

(** The window of the given radius around a range, cut at the ends of the
    text. *)
Definition window (text : str) (radius : Z) (sn : Snippet) : str :=
  slice text (Z.max 0 (snip_start sn - radius))
             (Z.min (len text) (snip_end sn + radius)).

(** What the scanning loop records about one occurrence of [q] in [text]:
    offsets within the text that span the occurrence, and the window
    around it. *)
Definition recorded_in (text q : str) (radius : Z) (sn : Snippet) : Prop :=
  in_bounds text sn ∧ snip_end sn = snip_start sn + len q ∧
  snip_text sn = window text radius sn ∧
  slice text (snip_start sn) (snip_end sn) = q.

(** The matches of a result; an error result carries none. *)
Definition matches_of (r : SearchResult) : list Match :=
  match r with
  | SearchError _ => []
  | SearchSuccess _ ms => ms
  end.

(** The first [n] characters of a string. *)
Definition first_chars (n : Z) (s : str) : str := take (Z.to_nat n) s.

(** The stored value as a function of the extracted text, in the words of
    the specification: the text itself when it fits, otherwise its first
    [max_chars] characters and the marker, so never more than the 15
    characters of the marker over [max_chars]. *)
Definition stored_as_specified (full stored : str) (max_chars : Z) : Prop :=
  (len full ≤ max_chars → stored = full) ∧
  (max_chars < len full →
     stored = first_chars max_chars full ++ TRUNCATED) ∧
  len stored ≤ max_chars + 15.

(** The key looks like the key of a resume, respectively of a job
    description. *)
Definition resume_like (mk : str) : Prop :=
  occurs_in (lit "cv") mk ∨ occurs_in (lit "resume") mk
  ∨ occurs_in (lit "candidate") mk.

Definition job_description_like (mk : str) : Prop :=
  occurs_in (lit "job") mk ∨ occurs_in (lit "jd") mk
  ∨ occurs_in (lit "description") mk.

(** Sample worlds: one where every path exists and every PDF has the single
    page ["abc"], one where nothing exists, one where reading fails. *)
Definition world_abc : World :=
  {| path_exists := λ _, true; pdf_reader := λ _, Pages [Some (lit "abc")] |}.

Definition world_empty : World :=
  {| path_exists := λ _, false; pdf_reader := λ _, Pages [] |}.

Definition world_broken : World :=
  {| path_exists := λ _, true;
     pdf_reader := λ _, Raises (lit "PdfReadError") |}.

(** ** Sessions *)

Record SessionId := {
  sid_app_name : string;
  sid_user_id : string;
  sid_session_id : string
}.

Record Session := {
  session_key : SessionId;
  session_state : dict
}.

(** The part of the session service that [main] relies on. [get_session]
    only reads; [create_session] stores the session it returns, so that a
    later [get_session] for the same identifier finds it. *)
Class SessionService (Svc : Type) := {
  get_session : Svc → SessionId → option Session;
  create_session : Svc → SessionId → Svc * Session;
  get_after_create : ∀ svc k,
    get_session (create_session svc k).1 k = Some (create_session svc k).2
}.

(** The session set-up of [main]: look the session up, create it when the
    lookup returned nothing. *)
Definition ensure_session `{SessionService Svc} (svc : Svc) (k : SessionId)
    : Svc * Session :=
  match get_session svc k with
  | Some session => (svc, session)
  | None => create_session svc k
  end.


#[global] Instance session_id_eq_dec : EqDecision SessionId.
Proof. solve_decision. Defined.

(** An in-memory service: the sessions in a list, newest first. *)
Definition in_memory := list Session.

Fixpoint in_memory_get (svc : in_memory) (k : SessionId) : option Session :=
  match svc with
  | [] => None
  | s :: svc' =>
      if decide (session_key s = k) then Some s else in_memory_get svc' k
  end.

Definition in_memory_create (svc : in_memory) (k : SessionId)
    : in_memory * Session :=
  let s := {| session_key := k; session_state := [] |} in
  (s :: svc, s).

#[global] Program Instance in_memory_service : SessionService in_memory := {|
  get_session := in_memory_get;
  create_session := in_memory_create
|}.
Next Obligation.
  intros svc k. simpl. by rewrite decide_True.
Qed.

(** ** The business-case table ([tools/generate_business_case_pdf.py]) *)

(** A paragraph of the document: its markup and the name of its style. *)
Record Paragraph := { para_text : str; para_style : string }.

(** [f'<b>{h}</b><br/>{t}']. *)
Definition section_markup (h t : str) : str :=
  lit "<b>" ++ h ++ lit "</b><br/>" ++ t.

Definition section_paragraph (ht : str * str) : Paragraph :=
  {| para_text := section_markup ht.1 ht.2; para_style := "BodyText" |}.

Definition empty_paragraph : Paragraph :=
  {| para_text := []; para_style := "BodyText" |}.

(** The [for] loop of [build_pdf] over the sections: a paragraph is added to
    [col_data], and a full [col_data] is moved to [table_data]. *)
Fixpoint fill_rows (sections : list (str * str))
    (table_data : list (list Paragraph)) (col_data : list Paragraph)
    : list (list Paragraph) * list Paragraph :=
  match sections with
  | [] => (table_data, col_data)
  | ht :: rest =>
      let col_data := col_data ++ [section_paragraph ht] in
      if decide (length col_data = 2%nat)
      then fill_rows rest (table_data ++ [col_data]) []
      else fill_rows rest table_data col_data
  end.

(** [table_data] as [build_pdf] hands it to [Table]: the rows of the loop,
    and what is left in [col_data] padded with an empty paragraph. *)
Definition table_rows (sections : list (str * str))
    : list (list Paragraph) :=
  let '(table_data, col_data) := fill_rows sections [] [] in
  match col_data with
  | [] => table_data
  | _ => table_data ++ [col_data ++ [empty_paragraph]]
  end.

(** ** More vocabulary *)

(** [q] stands in [text] at offset [j]. *)
Definition occurs_at (q text : str) (j : Z) : Prop :=
  ∃ pre post, text = pre ++ q ++ post ∧ len pre = j.

(** The offset [j] lies inside one of the ranges. *)
Definition covered (l : list Snippet) (j : Z) : Prop :=
  ∃ sn, sn ∈ l ∧ snip_start sn ≤ j < snip_end sn.

(** A text that neither starts nor ends with white space. *)
Definition trimmed (s : str) : Prop :=
  (∀ c, head s = Some c → isspace c = false) ∧
  (∀ c, last s = Some c → isspace c = false).

(** A word: not empty and free of white space. *)
Definition is_word (w : str) : Prop :=
  w ≠ [] ∧ Forall (λ c, isspace c = false) w.

(** The keys that one call of [read_pdf] with [memory_key] may write. *)
Definition written_by (memory_key k : str) : Prop :=
  k = memory_key
  ∨ (k = CV_MEMORY_KEY ∧ resume_like (lower memory_key))
  ∨ (k = JD_MEMORY_KEY ∧ job_description_like (lower memory_key)).

(** The tool context after a call of [read_pdf]. *)
Definition after_read (w : World) (file_path memory_key : str)
    (max_chars : Z) (tool_context : option ToolContext)
    : option ToolContext :=
  (read_pdf w file_path memory_key max_chars tool_context).2.

(** A world with a resume of one page and a job description of one page,
    and nothing else. *)
Definition world_two_files : World :=
  {| path_exists := λ p,
       bool_decide (p = lit "cv.pdf") || bool_decide (p = lit "jd.pdf");
     pdf_reader := λ p,
       if bool_decide (p = lit "cv.pdf")
       then Pages [Some (lit " Ada  Lovelace" ++ newline ++ lit " engineer ")]
       else Pages [Some (lit "engineer wanted"); None] |}.

(** A tool context to run the search on: two texts and a number. *)
Definition sample_context : ToolContext :=
  {| state := [(lit "a", VStr (lit "ababxab")); (lit "n", VInt 3);
               (lit "b", VStr (lit "xyz"))] |}.

(** What the search for [" ab "] with radius 1 collects from the text
    under ["a"] of [sample_context]. *)
Definition sample_entry : Match :=
  {| memory_key := lit "a";
     snippets :=
       [{| snip_text := lit "aba"; snip_start := 0; snip_end := 2 |};
        {| snip_text := lit "babx"; snip_start := 2; snip_end := 4 |};
        {| snip_text := lit "xab"; snip_start := 5; snip_end := 7 |}] |}.

(** The state after a call of [read_pdf] on a tool context that holds
    [st]. *)
Definition state_after_read (w : World) (file_path memory_key : str)
    (max_chars : Z) (st : dict) : dict :=
  match after_read w file_path memory_key max_chars
          (Some {| state := st |}) with
  | Some ctx => state ctx
  | None => st
  end.

(** The ranges a result reports for a key: the snippets of every entry
    that names the key, in the order of the entries. *)
Definition ranges_of_key (k : str) (ms : list Match) : list Snippet :=
  concat (snippets <$> filter (λ m, memory_key m = k) ms).

(** The entry that the search for ["a"] reports for the text ["a"] under
    the key ["k"]. *)
Definition entry_k : Match :=
  {| memory_key := lit "k";
     snippets := [{| snip_text := lit "a"; snip_start := 0;
                     snip_end := 1 |}] |}.

(** * Properties *)

(** ** Strings *)

Section strings.
Implicit Types (q t text pre post s : str) (i idx start : Z).

Lemma len_nonneg s : 0 ≤ len s.
Proof. unfold len. lia. Qed.

Lemma len_app s t : len (s ++ t) = len s + len t.
Proof. unfold len. rewrite length_app. lia. Qed.

Lemma len_cons_pos c s : 0 < len (c :: s).
Proof. unfold len. simpl. lia. Qed.

Lemma norm_index_range text i :
  0 ≤ norm_index (len text) i ≤ len text.
Proof.
  pose proof (len_nonneg text). unfold norm_index.
  destruct (i <? 0) eqn:E; lia.
Qed.

Lemma norm_index_id text i :
  0 ≤ i ≤ len text → norm_index (len text) i = i.
Proof. intros. unfold norm_index. destruct (i <? 0) eqn:E; lia. Qed.

(** A slice is a contiguous part of the sequence. *)
Lemma slice_substring text lo hi :
  ∃ pre post, text = pre ++ slice text lo hi ++ post.
Proof.
  unfold slice.
  set (l := Z.to_nat (norm_index (len text) lo)).
  set (n := Z.to_nat _).
  exists (take l text), (drop n (drop l text)).
  by rewrite take_drop, take_drop.
Qed.

(** Within bounds a slice is the expected run of characters. *)
Lemma slice_in_range pre s post :
  slice (pre ++ s ++ post) (len pre) (len pre + len s) = s.
Proof.
  pose proof (len_nonneg pre). pose proof (len_nonneg s).
  pose proof (len_nonneg post).
  unfold slice. rewrite !norm_index_id by (rewrite !len_app; lia).
  replace (Z.to_nat (len pre)) with (length pre) by (unfold len; lia).
  replace (Z.to_nat (len pre + len s - len pre)) with (length s)
    by (unfold len; lia).
  by rewrite drop_app_length, take_app_length.
Qed.

Lemma startswith_prefix q t :
  startswith q t = true ↔ ∃ post, t = q ++ post.
Proof.
  revert t. induction q as [|c q IH]; intros t; simpl.
  - split; eauto.
  - destruct t as [|d t].
    + split; [done | intros [post ?]; done].
    + destruct (decide (c = d)) as [->|Hne].
      * rewrite IH. split; intros [post ?]; exists post; congruence.
      * split; [done | intros [post ?]; congruence].
Qed.

(** What [find_at] returns is an occurrence at or after the offset it
    started from. *)
Lemma find_at_sound q t i idx :
  0 ≤ i → find_at q t i = idx → idx ≠ -1 →
  i ≤ idx ∧ ∃ pre post, t = pre ++ q ++ post ∧ len pre = idx - i.
Proof.
  revert i. induction t as [|c t IH]; intros i Hi; simpl.
  - destruct (startswith q []) eqn:E; [|intros <-; done].
    intros <- _. split; [lia|]. apply startswith_prefix in E as [post ->].
    exists [], post. split; [done | unfold len; simpl; lia].
  - destruct (startswith q (c :: t)) eqn:E.
    + intros <- _. split; [lia|]. apply startswith_prefix in E as [post E].
      exists [], post. split; [done | unfold len; simpl; lia].
    + intros Hf Hidx. destruct (IH (i + 1) ltac:(lia) Hf Hidx)
        as (Hle & pre & post & -> & Hlen).
      split; [lia|]. exists (c :: pre), post. split; [done|].
      unfold len in *. simpl. lia.
Qed.

(** [find_at] misses no occurrence. *)
Lemma find_at_complete q pre post i :
  0 ≤ i → find_at q (pre ++ q ++ post) i ≠ -1.
Proof.
  revert i. induction pre as [|c pre IH]; intros i Hi.
  - destruct (q ++ post) as [|d t] eqn:Et; simpl;
      (destruct (startswith q _) eqn:E; [lia|]);
      exfalso; assert (startswith q (q ++ post) = true) as Hs
        by (apply startswith_prefix; eauto);
      simpl in Hs; rewrite Et in Hs; congruence.
  - simpl. destruct (startswith q _); [lia|]. apply IH. lia.
Qed.

(** [text.find(q, start)] from a valid offset: the result is an occurrence
    of [q] inside [text], at or after [start]. *)
Lemma find_sound text q start idx :
  0 ≤ start → find text q start = idx → idx ≠ -1 →
  start ≤ idx ∧ idx + len q ≤ len text ∧
  ∃ pre post, text = pre ++ q ++ post ∧ len pre = idx.
Proof.
  intros Hs. unfold find. destruct (len text <? start) eqn:E; [congruence|].
  rewrite norm_index_id by lia. intros Hf Hidx.
  destruct (find_at_sound _ _ _ _ Hs Hf Hidx) as (Hle & pre & post & Ht & Hl).
  assert (text = (take (Z.to_nat start) text ++ pre) ++ q ++ post) as Htext.
  { rewrite <- (assoc app), <- Ht. by rewrite take_drop. }
  assert (len (take (Z.to_nat start) text ++ pre) = idx) as Hlen.
  { rewrite len_app. unfold len in *. rewrite length_take. lia. }
  split; [done|]. split; [|eauto].
  pose proof (f_equal len Htext) as Hsum.
  rewrite len_app, Hlen, len_app in Hsum.
  pose proof (len_nonneg post). lia.
Qed.

(** [sub in s] holds exactly when [sub] is a contiguous part of [s]. *)
Lemma contains_spec sub s :
  contains sub s = true ↔ ∃ pre post, s = pre ++ sub ++ post.
Proof.
  unfold contains. rewrite negb_true_iff, Z.eqb_neq. split.
  - intros Hne. destruct (find_sound s sub 0 _ ltac:(lia) eq_refl Hne)
      as (_ & _ & pre & post & ? & _). eauto.
  - intros (pre & post & ->). unfold find.
    pose proof (len_nonneg (pre ++ sub ++ post)).
    destruct (_ <? 0) eqn:E; [lia|].
    rewrite norm_index_id by lia. simpl. by apply find_at_complete.
Qed.

Lemma lstrip_spaces s :
  Forall (λ c, isspace c = true) (lstrip s)
  ↔ Forall (λ c, isspace c = true) s.
Proof.
  induction s as [|c s IH]; simpl; [done|].
  destruct (isspace c) eqn:E; [|done].
  rewrite IH, Forall_cons. tauto.
Qed.

Lemma lstrip_nil s :
  lstrip s = [] ↔ Forall (λ c, isspace c = true) s.
Proof.
  induction s as [|c s IH]; simpl; [done|].
  destruct (isspace c) eqn:E.
  - rewrite IH, Forall_cons. tauto.
  - split; [done|]. intros H. apply Forall_cons in H as [? _]. congruence.
Qed.

(** [strip] leaves nothing exactly of the strings made of white space
    only (the empty one among them). *)
Lemma strip_nil s :
  strip s = [] ↔ Forall (λ c, isspace c = true) s.
Proof.
  unfold strip, rstrip.
  rewrite <- (reverse_involutive []) at 1.
  split.
  - intros H. apply (inj reverse) in H. rewrite reverse_nil in H.
    apply lstrip_nil in H. rewrite Forall_reverse in H.
    by apply lstrip_spaces.
  - intros H. f_equal. rewrite reverse_nil. apply lstrip_nil.
    rewrite Forall_reverse. by apply lstrip_spaces.
Qed.

End strings.

(** ** The scanning loop *)

Section scan.
Context (text q : str) (max_snippets snippet_radius : Z).
Context (q_nonempty : q ≠ []).

Local Abbreviation recorded := (recorded_in text q snippet_radius).

Lemma len_q_pos : 0 < len q.
Proof using q_nonempty. destruct q; [done | apply len_cons_pos]. Qed.

Lemma left_to_right_snoc acc sn :
  left_to_right acc → Forall (λ a, precedes a sn) acc →
  left_to_right (acc ++ [sn]).
Proof.
  intros Hacc Hall i j a b Hij Hi Hj.
  assert (j < length (acc ++ [sn]))%nat as Hlt by by eapply lookup_lt_Some.
  rewrite length_app in Hlt. simpl in Hlt.
  rewrite lookup_app_l in Hi by lia.
  destruct (decide (j < length acc)%nat) as [Hj'|Hj'].
  - rewrite lookup_app_l in Hj by done. eauto.
  - rewrite lookup_app_r in Hj by lia.
    replace (j - length acc)%nat with 0%nat in Hj by lia.
    simpl in Hj. injection Hj as <-.
    eapply Forall_forall in Hall; [done|]. by eapply list_elem_of_lookup_2.
Qed.

(** One iteration: the snippet appended for an occurrence found from
    [start] is recorded faithfully and starts at or after [start]. *)
Lemma found_recorded start idx :
  0 ≤ start → find text q start = idx → idx ≠ -1 →
  start ≤ idx ∧
  recorded {| snip_text :=
                slice text (Z.max 0 (idx - snippet_radius))
                  (Z.min (len text) (idx + len q + snippet_radius));
              snip_start := idx; snip_end := idx + len q |}.
Proof using q_nonempty.
  intros Hs Hf Hidx. pose proof len_q_pos.
  destruct (find_sound _ _ _ _ Hs Hf Hidx)
    as (Hle & Hend & pre & post & Ht & Hpre).
  split; [done|]. unfold recorded_in, in_bounds, window. simpl.
  repeat split; try lia.
  rewrite Ht, <- Hpre. apply slice_in_range.
Qed.

(** The invariant of the loop: what has been collected is recorded
    faithfully, ordered from left to right, and ends at or before the
    offset from which the scan resumes. *)
Lemma scan_invariant fuel start found_count acc r :
  0 ≤ start →
  Forall recorded acc → left_to_right acc →
  Forall (λ a, snip_end a ≤ start) acc →
  scan fuel text q max_snippets snippet_radius start found_count acc
    = Some r →
  Forall recorded r ∧ left_to_right r.
Proof using q_nonempty.
  revert start found_count acc.
  induction fuel as [|fuel IH]; intros start fc acc Hs Hrec Hord Hend;
    simpl; [done|].
  destruct (find text q start =? -1) eqn:Ef.
  { intros [= <-]. done. }
  apply Z.eqb_neq in Ef.
  destruct (found_recorded start _ Hs eq_refl Ef) as [Hle Hsn].
  set (sn := {| snip_start := find text q start |}) in *.
  pose proof len_q_pos as Hq.
  assert (Forall recorded (acc ++ [sn])) as Hrec'.
  { apply Forall_app. split; [done|]. by apply Forall_singleton. }
  assert (left_to_right (acc ++ [sn])) as Hord'.
  { apply left_to_right_snoc; [done|].
    apply Forall_forall. intros a Ha.
    destruct (proj1 (Forall_forall _ _) Hrec a Ha) as (_ & Hlen & _).
    pose proof (proj1 (Forall_forall _ _) Hend a Ha) as Hae. simpl in Hae.
    unfold precedes. simpl. lia. }
  destruct (_ >=? _).
  - intros [= <-]. done.
  - apply IH; [lia | done | done |].
    apply Forall_app. split.
    + eapply Forall_impl; [exact Hend|]. simpl. intros; lia.
    + apply Forall_singleton. simpl. lia.
Qed.

(** The loop leaves once [max_snippets] occurrences are collected, but
    tests the count only after it has collected one. *)
Lemma scan_count fuel start found_count acc r :
  scan fuel text q max_snippets snippet_radius start found_count acc
    = Some r →
  Z.of_nat (length r)
    ≤ Z.of_nat (length acc) + Z.max 1 (max_snippets - found_count).
Proof.
  revert start found_count acc.
  induction fuel as [|fuel IH]; intros start fc acc; simpl; [done|].
  destruct (_ =? -1); [intros [= <-]; lia|].
  destruct (_ >=? _) eqn:E.
  - intros [= <-]. rewrite length_app. simpl. lia.
  - intros H. apply IH in H. rewrite length_app in H. simpl in H. lia.
Qed.

(** The loop ends: every iteration that continues moves [start] forward
    by the length of the query. *)
Lemma scan_terminates fuel start found_count acc :
  0 ≤ start ≤ len text → len text - start < Z.of_nat fuel →
  is_Some (scan fuel text q max_snippets snippet_radius start found_count
                acc).
Proof using q_nonempty.
  revert start found_count acc.
  induction fuel as [|fuel IH]; intros start fc acc Hs Hfuel; simpl;
    [lia|].
  destruct (find text q start =? -1) eqn:Ef; [done|].
  apply Z.eqb_neq in Ef.
  destruct (find_sound text q start _ ltac:(lia) eq_refl Ef)
    as (Hle & Hend & _).
  pose proof len_q_pos.
  destruct (_ >=? _); [done|]. apply IH; lia.
Qed.

(** Fuel beyond what the loop needs changes nothing. *)
Lemma scan_more_fuel fuel start found_count acc r :
  scan fuel text q max_snippets snippet_radius start found_count acc
    = Some r →
  scan (S fuel) text q max_snippets snippet_radius start found_count acc
    = Some r.
Proof.
  revert start found_count acc.
  induction fuel as [|fuel IH]; intros start fc acc; [done|].
  intros Hs. simpl in Hs. cbn [scan].
  destruct (_ =? -1); [done|]. destruct (_ >=? _); [done|].
  by apply IH.
Qed.

Lemma scan_fuel_enough :
  is_Some (scan (scan_fuel text) text q max_snippets snippet_radius 0 0 []).
Proof using q_nonempty.
  pose proof (len_nonneg text).
  apply scan_terminates; [lia|]. unfold scan_fuel, len. lia.
Qed.

End scan.

(** ** The loop over the keys *)

Section search_keys.
Context (st : dict) (q : str) (max_snippets snippet_radius : Z).

Local Arguments scan : simpl never.

(** Where an entry of the result comes from: a searched key that holds a
    non-empty text, with the snippets the scan of that text collected. *)
Lemma search_keys_origin keys acc r m :
  search_keys st q max_snippets snippet_radius keys acc = Some r →
  m ∈ r →
  m ∈ acc ∨
  ∃ text, memory_key m ∈ keys ∧
    dict_get st (memory_key m) = Some (VStr text) ∧
    scan (scan_fuel text) text q max_snippets snippet_radius 0 0 []
      = Some (snippets m).
Proof.
  revert acc. induction keys as [|key rest IH]; intros acc; simpl.
  { intros [= <-]. auto. }
  assert (∀ acc', search_keys st q max_snippets snippet_radius rest acc'
                    = Some r → m ∈ r → m ∈ acc' ∨
            ∃ text, memory_key m ∈ key :: rest ∧
              dict_get st (memory_key m) = Some (VStr text) ∧
              scan (scan_fuel text) text q max_snippets snippet_radius
                   0 0 [] = Some (snippets m)) as IH'.
  { intros acc' H Hm. destruct (IH _ H Hm) as [?|(text & ? & ?)]; [auto|].
    right. exists text. split; [apply elem_of_cons; auto | done]. }
  destruct (dict_get st key) as [[[|c t]| | |]|] eqn:Eg; simpl; try apply IH'.
  destruct (scan _ _ _ _ _ _ _ _) as [found|] eqn:Es; simpl; [|done].
  destruct found as [|sn found]; [apply IH'|].
  intros H Hm. destruct (IH' _ H Hm) as [Hin|?]; [|auto].
  apply elem_of_app in Hin as [?|Hin]; [auto|].
  apply list_elem_of_singleton in Hin as ->. right. simpl.
  exists (c :: t). split; [apply elem_of_cons; auto | done].
Qed.

Lemma search_keys_returns keys acc :
  q ≠ [] →
  is_Some (search_keys st q max_snippets snippet_radius keys acc).
Proof.
  intros Hq. revert acc. induction keys as [|key rest IH]; intros acc;
    simpl; [done|].
  destruct (dict_get st key) as [[[|c t]| | |]|]; simpl; try apply IH.
  destruct (scan_fuel_enough (c :: t) q max_snippets snippet_radius Hq)
    as [found ->].
  simpl. apply IH.
Qed.

End search_keys.

(** [search_memory] always returns. *)
Lemma search_memory_returns query memory_keys max_snippets snippet_radius
    tool_context :
  is_Some (search_memory query memory_keys max_snippets snippet_radius
             tool_context).
Proof.
  unfold search_memory. destruct tool_context as [ctx|]; [|done].
  destruct (strip _) as [|c q] eqn:E; [done|].
  destruct (search_keys_returns (state ctx) (c :: q) max_snippets
              snippet_radius (keys_to_search memory_keys (state ctx)) [])
    as [ms ->]; done.
Qed.

(** Every entry of a result names a key of the state that holds a text, and
    carries what the scanning loop collected from that text for the
    stripped query, which is not empty. *)
Lemma search_memory_origin query memory_keys max_snippets snippet_radius
    ctx r m :
  search_memory query memory_keys max_snippets snippet_radius (Some ctx)
    = Some r →
  m ∈ matches_of r →
  strip (or_str query []) ≠ [] ∧
  ∃ text, dict_get (state ctx) (memory_key m) = Some (VStr text) ∧
    scan (scan_fuel text) text (strip (or_str query [])) max_snippets
         snippet_radius 0 0 [] = Some (snippets m).
Proof.
  unfold search_memory. destruct (strip _) as [|c q] eqn:E.
  { intros [= <-]. simpl. by intros ?%elem_of_nil. }
  destruct (search_keys _ _ _ _ _ _) as [ms|] eqn:Ek; simpl; [|done].
  intros [= <-] Hm. simpl in Hm. split; [done|].
  destruct (search_keys_origin _ _ _ _ _ _ _ _ Ek Hm)
    as [?%elem_of_nil|(text & _ & ? & ?)]; [done|]. eauto.
Qed.

Lemma left_to_right_nil : left_to_right [].
Proof. intros i j a b _ Hi. done. Qed.

(** What [search_memory] collects for a key, scanned from the start of the
    text of that key. *)
Lemma scan_from_start text q max_snippets snippet_radius found :
  q ≠ [] →
  scan (scan_fuel text) text q max_snippets snippet_radius 0 0 []
    = Some found →
  Forall (recorded_in text q snippet_radius) found ∧ left_to_right found.
Proof.
  intros Hq Hs.
  eapply (scan_invariant text q max_snippets snippet_radius Hq);
    [| | | | exact Hs]; [lia | done | apply left_to_right_nil | done].
Qed.

(** ** Properties of [search_memory] *)

(** For every call, whatever the query, the keys, the limits and the
    state: [search_memory] returns, and in every entry of the matches it
    returns the offset ranges [start, end) are pairwise disjoint and in
    strictly increasing order, each range ending at or before the start of
    every later one. Matches are only returned for a query that is not
    empty after stripping. An entry is what one pass over [keys_to_search]
    collects for one key. *)
Lemma search_memory_ranges_left_to_right query memory_keys max_snippets
    snippet_radius tool_context :
  ∃ r, search_memory query memory_keys max_snippets snippet_radius
         tool_context = Some r ∧
    ∀ m, m ∈ matches_of r →
      strip (or_str query []) ≠ [] ∧ left_to_right (snippets m).
Proof.
  destruct (search_memory_returns query memory_keys max_snippets
              snippet_radius tool_context) as [r Hr].
  exists r. split; [done|]. intros m Hm.
  destruct tool_context as [ctx|].
  - destruct (search_memory_origin _ _ _ _ _ _ _ Hr Hm)
      as (Hq & text & _ & Hs).
    split; [done|]. by apply scan_from_start in Hs as [_ ?].
  - simpl in Hr. injection Hr as <-. by apply elem_of_nil in Hm.
Qed.

(** C2. For every call, [search_memory] returns, and every entry of the
    matches names a key whose value in the state is a text such that, for
    every snippet of the entry, 0 <= start <= end <= len(text), the snippet
    text is the slice of the text from max(0, start - snippet_radius) to
    min(len(text), end + snippet_radius), and the snippet text is a
    contiguous part of the text. *)
Theorem search_memory_snippets_within_text query memory_keys max_snippets
    snippet_radius tool_context :
  ∃ r, search_memory query memory_keys max_snippets snippet_radius
         tool_context = Some r ∧
    ∀ m, m ∈ matches_of r →
      ∃ ctx text, tool_context = Some ctx ∧
        dict_get (state ctx) (memory_key m) = Some (VStr text) ∧
        ∀ sn, sn ∈ snippets m →
          in_bounds text sn ∧
          snip_text sn = window text snippet_radius sn ∧
          occurs_in (snip_text sn) text.
Proof.
  destruct (search_memory_returns query memory_keys max_snippets
              snippet_radius tool_context) as [r Hr].
  exists r. split; [done|]. intros m Hm.
  destruct tool_context as [ctx|].
  - destruct (search_memory_origin _ _ _ _ _ _ _ Hr Hm)
      as (Hq & text & Hg & Hs).
    exists ctx, text. do 2 (split; [done|]). intros sn Hsn.
    apply scan_from_start in Hs as [Hrec _]; [|done].
    destruct (proj1 (Forall_forall _ _) Hrec sn Hsn) as (Hb & _ & Hw & _).
    do 2 (split; [done|]). rewrite Hw. apply slice_substring.
  - simpl in Hr. injection Hr as <-. by apply elem_of_nil in Hm.
Qed.

(** A run of the tool: the query [" ab "] is stripped, the text under ["a"]
    holds it three times, adjacent occurrences are told apart, the number
    under ["n"] is skipped, and the windows of radius 1 are cut at the ends
    of the text. *)
Example search_memory_adjacent_matches :
  search_memory (Some (lit " ab ")) None 5 1
      (Some {| state := [(lit "a", VStr (lit "ababxab")); (lit "n", VInt 3)] |})
  = Some (SearchSuccess (lit "ab")
            [{| memory_key := lit "a";
                snippets :=
                  [{| snip_text := lit "aba"; snip_start := 0;
                      snip_end := 2 |};
                   {| snip_text := lit "babx"; snip_start := 2;
                      snip_end := 4 |};
                   {| snip_text := lit "xab"; snip_start := 5;
                      snip_end := 7 |}] |}]).
Proof. reflexivity. Qed.

(** The reported range is where the stripped query stands in the text. *)
Lemma search_memory_range_is_query query memory_keys max_snippets
    snippet_radius ctx r m sn :
  search_memory query memory_keys max_snippets snippet_radius (Some ctx)
    = Some r →
  m ∈ matches_of r → sn ∈ snippets m →
  ∃ text, dict_get (state ctx) (memory_key m) = Some (VStr text) ∧
    slice text (snip_start sn) (snip_end sn) = strip (or_str query []).
Proof.
  intros Hr Hm Hsn.
  destruct (search_memory_origin _ _ _ _ _ _ _ Hr Hm) as (Hq & text & Hg & Hs).
  exists text. split; [done|].
  apply scan_from_start in Hs as [Hrec _]; [|done].
  by destruct (proj1 (Forall_forall _ _) Hrec sn Hsn) as (_ & _ & _ & ?).
Qed.

(** With a limit of at least one, an entry holds at most that many
    snippets; with any limit it holds at most [max 1 max_snippets]. *)
Lemma search_memory_snippet_count query memory_keys max_snippets
    snippet_radius ctx r m :
  search_memory query memory_keys max_snippets snippet_radius (Some ctx)
    = Some r →
  m ∈ matches_of r →
  Z.of_nat (length (snippets m)) ≤ Z.max 1 max_snippets.
Proof.
  intros Hr Hm.
  destruct (search_memory_origin _ _ _ _ _ _ _ Hr Hm) as (_ & text & _ & Hs).
  apply scan_count in Hs. simpl in Hs. lia.
Qed.

(** C3. The code at [max_snippets = 0]: with the state [{"k": "a"}] and the
    query ["a"], one match is collected for the key although the limit is
    zero. The loop compares the count with the limit only after it has
    appended a snippet. *)
Theorem search_memory_zero_limit_collects_one :
  search_memory (Some (lit "a")) None 0 80
      (Some {| state := [(lit "k", VStr (lit "a"))] |})
  = Some (SearchSuccess (lit "a")
            [{| memory_key := lit "k";
                snippets := [{| snip_text := lit "a"; snip_start := 0;
                                snip_end := 1 |}] |}]).
Proof. reflexivity. Qed.

(** The same with a negative limit. *)
Example search_memory_negative_limit_collects_one :
  search_memory (Some (lit "a")) None (-3) 80
      (Some {| state := [(lit "k", VStr (lit "a"))] |})
  = Some (SearchSuccess (lit "a")
            [{| memory_key := lit "k";
                snippets := [{| snip_text := lit "a"; snip_start := 0;
                                snip_end := 1 |}] |}]).
Proof. reflexivity. Qed.

(** C4. For every call, [search_memory] returns a result, and the result
    - has the status "error" exactly when there is no tool context or the
      query is empty or made of white space only;
    - is the "Session context missing" error exactly when there is no tool
      context;
    - is the "Query string is empty" error exactly when there is a tool
      context and the query is empty or made of white space only;
    - is otherwise a success for the stripped query, with a list of
      matches that may be empty. *)
Theorem search_memory_error_iff query memory_keys max_snippets snippet_radius
    tool_context :
  ∃ r, search_memory query memory_keys max_snippets snippet_radius
         tool_context = Some r ∧
    (search_status r = lit "error"
       ↔ tool_context = None ∨ whitespace_only (or_str query [])) ∧
    (r = SearchError (lit "Session context missing")
       ↔ tool_context = None) ∧
    (r = SearchError (lit "Query string is empty")
       ↔ tool_context ≠ None ∧ whitespace_only (or_str query [])) ∧
    (¬ (tool_context = None ∨ whitespace_only (or_str query [])) →
       search_status r = lit "success" ∧
       ∃ ms, r = SearchSuccess (strip (or_str query [])) ms).
Proof.
  unfold search_memory, whitespace_only.
  destruct tool_context as [ctx|].
  - destruct (strip (or_str query [])) as [|c q] eqn:E.
    + apply strip_nil in E. eexists. split; [reflexivity|].
      split; [|split; [|split]].
      * split; [intros _; by right | reflexivity].
      * split; intros H; discriminate H.
      * split; [intros _; by split | reflexivity].
      * intros Hn. exfalso. apply Hn. by right.
    + assert (¬ Forall (λ c, isspace c = true) (or_str query [])) as Hn.
      { intros H%strip_nil. congruence. }
      destruct (search_keys_returns (state ctx) (c :: q) max_snippets
                  snippet_radius (keys_to_search memory_keys (state ctx)) [])
        as [ms ->]; [done|].
      simpl. eexists. split; [reflexivity|].
      split; [|split; [|split]].
      * split; [intros H; discriminate H | intros [H|H]; [discriminate H|]].
        by destruct Hn.
      * split; intros H; discriminate H.
      * split; [intros H; discriminate H | intros [_ H]; by destruct Hn].
      * intros _. split; [reflexivity | by exists ms].
  - eexists. split; [reflexivity|].
    split; [|split; [|split]].
    + split; [intros _; by left | reflexivity].
    + split; reflexivity.
    + split; [intros H; discriminate H | intros [H _]; by destruct H].
    + intros Hn. exfalso. apply Hn. by left.
Qed.


(** The default is not the empty search: with the state
    [{"k": "a", "n": 1}] an empty list of keys still finds the text. *)
Example search_memory_empty_keys_finds :
  search_memory (Some (lit "a")) (Some []) 5 80
      (Some {| state := [(lit "k", VStr (lit "a")); (lit "n", VInt 1)] |})
  = Some (SearchSuccess (lit "a")
            [{| memory_key := lit "k";
                snippets := [{| snip_text := lit "a"; snip_start := 0;
                                snip_end := 1 |}] |}]).
Proof. reflexivity. Qed.

(** ** The state as a dictionary *)

Lemma dict_get_set d k v k' :
  dict_get (dict_set d k v) k'
    = if decide (k = k') then Some v else dict_get d k'.
Proof.
  induction d as [|[k0 v0] d IH]; simpl.
  - destruct (decide (k = k')); done.
  - destruct (decide (k0 = k)) as [->|Hne]; simpl.
    + destruct (decide (k = k')); done.
    + rewrite IH. destruct (decide (k0 = k')) as [->|?]; [|done].
      by rewrite decide_False.
Qed.

Lemma dict_get_set_eq d k v : dict_get (dict_set d k v) k = Some v.
Proof. rewrite dict_get_set. by rewrite decide_True. Qed.

Lemma or_str_some s : or_str (Some s) [] = s.
Proof. by destruct s. Qed.

Lemma looks_like_cv_spec mk : looks_like_cv mk = true ↔ resume_like mk.
Proof.
  unfold looks_like_cv, any_in, resume_like, occurs_in. cbn [existsb].
  rewrite !orb_true_iff, !contains_spec. intuition congruence.
Qed.

Lemma looks_like_jd_spec mk :
  looks_like_jd mk = true ↔ job_description_like mk.
Proof.
  unfold looks_like_jd, any_in, job_description_like, occurs_in.
  cbn [existsb].
  rewrite !orb_true_iff, !contains_spec. intuition congruence.
Qed.

(** ** Properties of [read_pdf] *)

Section store_text.
Context (st : dict) (memory_key content : str).

Lemma store_text_key :
  dict_get (store_text st memory_key content) memory_key
    = Some (VStr content).
Proof.
  unfold store_text.
  destruct (looks_like_jd _), (looks_like_cv _);
    rewrite ?dict_get_set; repeat case_decide; done.
Qed.

Lemma store_text_cv :
  resume_like (lower memory_key) →
  dict_get (store_text st memory_key content) CV_MEMORY_KEY
    = Some (VStr content).
Proof.
  intros H%looks_like_cv_spec. unfold store_text.
  rewrite or_str_some, H.
  destruct (looks_like_jd _);
    rewrite ?dict_get_set; repeat case_decide; done.
Qed.

Lemma store_text_jd :
  job_description_like (lower memory_key) →
  dict_get (store_text st memory_key content) JD_MEMORY_KEY
    = Some (VStr content).
Proof.
  intros H%looks_like_jd_spec. unfold store_text.
  rewrite or_str_some, H. apply dict_get_set_eq.
Qed.

End store_text.

(** A call that reports success had a file to read, pages from it and a
    tool context, and stored the truncated text. *)
Lemma read_pdf_success_inv w file_path memory_key max_chars tool_context
    r ctx' :
  read_pdf w file_path memory_key max_chars tool_context = (r, ctx') →
  read_status r = lit "success" →
  ∃ texts ctx msg,
    pdf_reader w file_path = Pages texts ∧ tool_context = Some ctx ∧
    r = ReadSuccess msg
          (len (truncate (full_content_of texts) max_chars)) ∧
    ctx' = Some {| state := store_text (state ctx) memory_key
                    (truncate (full_content_of texts) max_chars) |}.
Proof.
  unfold read_pdf. destruct (negb _).
  { intros [= <- <-] H. discriminate H. }
  destruct (pdf_reader w file_path) as [e|texts].
  { intros [= <- <-] H. discriminate H. }
  destruct tool_context as [ctx|].
  - intros [= <- <-] _. by eexists _, _, _.
  - intros [= <- <-] H. discriminate H.
Qed.

(** C5. Whenever [read_pdf] reports success, the text it extracted and
    truncated is stored under [memory_key]; if the lowercased key contains
    "cv", "resume" or "candidate" the same text is also stored under
    "pdf_resume_text", and if it contains "job", "jd" or "description" the
    same text is also stored under "job_description_text". *)
Theorem read_pdf_alias_write w file_path memory_key max_chars tool_context
    r ctx' :
  read_pdf w file_path memory_key max_chars tool_context = (r, ctx') →
  read_status r = lit "success" →
  ∃ texts ctx1 content,
    pdf_reader w file_path = Pages texts ∧
    content = truncate (full_content_of texts) max_chars ∧
    ctx' = Some ctx1 ∧
    dict_get (state ctx1) memory_key = Some (VStr content) ∧
    (resume_like (lower memory_key) →
       dict_get (state ctx1) CV_MEMORY_KEY = Some (VStr content)) ∧
    (job_description_like (lower memory_key) →
       dict_get (state ctx1) JD_MEMORY_KEY = Some (VStr content)).
Proof.
  intros Hr Hs.
  destruct (read_pdf_success_inv _ _ _ _ _ _ _ Hr Hs)
    as (texts & ctx & msg & Hp & -> & -> & ->).
  eexists texts, _, _. do 3 (split; [done|]). simpl.
  split; [apply store_text_key|].
  split; [apply store_text_cv | apply store_text_jd].
Qed.

Lemma read_pdf_alias_write_witness :
  ∃ ctx1 content,
    dict_get (state ctx1) (lit "Candidate_JD") = Some (VStr content) ∧
    dict_get (state ctx1) CV_MEMORY_KEY = Some (VStr content) ∧
    dict_get (state ctx1) JD_MEMORY_KEY = Some (VStr content).
Proof.
  destruct (read_pdf_alias_write world_abc (lit "a.pdf") (lit "Candidate_JD")
              120000 (Some {| state := [(lit "n", VInt 1)] |}) _ _
              eq_refl eq_refl)
    as (texts & ctx1 & content & _ & _ & _ & Hk & Hcv & Hjd).
  exists ctx1, content. split; [exact Hk|]. split.
  - apply Hcv. right. right.
    exists [], (lit "_jd"). reflexivity.
  - apply Hjd. right. left.
    exists (lit "candidate_"), []. reflexivity.
Defined.

(** C6. When the file does not exist at the path, or exists and reading it
    raises an exception, [read_pdf] returns a result with the status
    "error" that carries an error message, and the tool context with its
    state is what it was before the call. *)
Theorem read_pdf_error_leaves_state w file_path memory_key max_chars
    tool_context :
  path_exists w file_path = false
  ∨ (∃ e, pdf_reader w file_path = Raises e) →
  read_status (read_pdf w file_path memory_key max_chars tool_context).1
    = lit "error" ∧
  (∃ msg, (read_pdf w file_path memory_key max_chars tool_context).1
            = ReadError msg) ∧
  (read_pdf w file_path memory_key max_chars tool_context).2 = tool_context.
Proof.
  unfold read_pdf. intros [Hp|[e He]].
  - rewrite Hp. simpl. eauto.
  - destruct (negb _); simpl; [eauto|]. rewrite He. simpl. eauto.
Qed.

Lemma read_pdf_error_leaves_state_witness :
  (read_pdf world_empty (lit "cv.pdf") CV_MEMORY_KEY 120000
     (Some {| state := [(lit "n", VInt 1)] |})).2
    = Some {| state := [(lit "n", VInt 1)] |}
  ∧ (read_pdf world_broken (lit "cv.pdf") CV_MEMORY_KEY 120000
       (Some {| state := [(lit "n", VInt 1)] |})).2
    = Some {| state := [(lit "n", VInt 1)] |}.
Proof.
  split.
  - apply (read_pdf_error_leaves_state world_empty (lit "cv.pdf")
             CV_MEMORY_KEY 120000 (Some {| state := [(lit "n", VInt 1)] |})).
    left. reflexivity.
  - apply (read_pdf_error_leaves_state world_broken (lit "cv.pdf")
             CV_MEMORY_KEY 120000 (Some {| state := [(lit "n", VInt 1)] |})).
    right. exists (lit "PdfReadError"). reflexivity.
Defined.

Lemma len_TRUNCATED : len TRUNCATED = 15.
Proof. reflexivity. Qed.

(** With a limit that is not negative, the truncation is the one the
    specification describes. *)
Lemma truncate_as_specified full max_chars :
  0 ≤ max_chars →
  stored_as_specified full (truncate full max_chars) max_chars.
Proof.
  intros Hm. unfold stored_as_specified, truncate, first_chars.
  pose proof (len_nonneg full).
  destruct (len full >? max_chars) eqn:E.
  - assert (slice full 0 max_chars = take (Z.to_nat max_chars) full) as ->.
    { unfold slice. rewrite !norm_index_id by lia.
      rewrite Z.sub_0_r. done. }
    split; [lia|]. split; [done|].
    rewrite len_app, len_TRUNCATED. unfold len. rewrite length_take. lia.
  - split; [done|]. split; lia.
Qed.

(** C10, as the code has it. For every successful call the returned
    [extracted_length] is the length of the value stored under
    [memory_key]; and when [max_chars] is not negative, that value is the
    full extracted text if its length is at most [max_chars], otherwise its
    first [max_chars] characters followed by the 15 characters of the
    marker, so that its length is at most [max_chars + 15]. *)
Theorem read_pdf_stored_value w file_path memory_key max_chars tool_context
    r ctx' :
  read_pdf w file_path memory_key max_chars tool_context = (r, ctx') →
  read_status r = lit "success" →
  ∃ texts ctx1 stored msg,
    pdf_reader w file_path = Pages texts ∧ ctx' = Some ctx1 ∧
    dict_get (state ctx1) memory_key = Some (VStr stored) ∧
    r = ReadSuccess msg (len stored) ∧
    len TRUNCATED = 15 ∧
    (0 ≤ max_chars →
       stored_as_specified (full_content_of texts) stored max_chars).
Proof.
  intros Hr Hs.
  destruct (read_pdf_success_inv _ _ _ _ _ _ _ Hr Hs)
    as (texts & ctx & msg & Hp & -> & -> & ->).
  eexists texts, _, _, msg. do 2 (split; [done|]). simpl.
  split; [apply store_text_key|]. do 2 (split; [done|]).
  apply truncate_as_specified.
Qed.

Lemma read_pdf_stored_value_witness :
  ∃ stored, stored_as_specified (lit "abc") stored 2 ∧ len stored = 17.
Proof.
  destruct (read_pdf_stored_value world_abc (lit "a.pdf") (lit "notes") 2
              (Some {| state := [] |}) _ _ eq_refl eq_refl)
    as (texts & ctx1 & stored & msg & Ht & Hc & Hg & Hr & _ & Hspec).
  injection Ht as <-. injection Hc as <-. injection Hg as <-.
  eexists. split; [apply Hspec; lia | reflexivity].
Defined.

(** C10, as stated, fails at [max_chars = -1]. The PDF has the single page
    ["abc"]; the slice [full_content[:-1]] is ["ab"], so the value stored is
    ["ab\n...[TRUNCATED]"], 17 characters long: neither the first
    [max_chars] characters followed by the marker, nor within 15 characters
    of [max_chars]. *)
Lemma read_pdf_negative_max_chars :
  full_content_of [Some (lit "abc")] = lit "abc" ∧
  read_pdf world_abc (lit "a.pdf") (lit "notes") (-1)
      (Some {| state := [] |})
    = (ReadSuccess
         (lit "PDF text extracted successfully and saved to session memory under key: 'notes'.")
         17,
       Some {| state := [(lit "notes", VStr (lit "ab" ++ TRUNCATED))] |}) ∧
  ¬ stored_as_specified (lit "abc") (lit "ab" ++ TRUNCATED) (-1).
Proof.
  split; [reflexivity|]. split; [reflexivity|].
  intros (_ & _ & Hlen). vm_compute in Hlen. by apply Hlen.
Qed.

(** ** The agents and the retry options *)

(** C7. The places where the external model is called are the four
    reasoning agents at the leaves of [root_agent]; the model of each of
    them carries the one shared [retry_config], whose fields are 5
    attempts, base 7, initial delay 1 and the codes 429, 500, 503, 504. No
    agent has retry options of its own. *)
Theorem every_call_site_shares_retry_config :
  call_sites root_agent
    = [cv_loader_agent; jd_loader_agent; cv_screening_agent;
       talent_matching_agent] ∧
  (∀ a, a ∈ call_sites root_agent →
     retry_options (model a) = Some retry_config) ∧
  attempts retry_config = 5 ∧ exp_base retry_config = 7 ∧
  initial_delay retry_config = 1 ∧
  http_status_codes retry_config = [429; 500; 503; 504].
Proof.
  split; [reflexivity|]. split; [|done].
  intros a Ha. simpl in Ha.
  repeat (apply elem_of_cons in Ha as [->|Ha]; [reflexivity|]).
  by apply elem_of_nil in Ha.
Qed.

(** ** Sessions *)

Section sessions.
Context `{SessionService Svc}.



End sessions.



(** * Further properties *)

(** ** Where [find] does not find *)

Lemma occurs_at_startswith q text j :
  occurs_at q text j → startswith q (drop (Z.to_nat j) text) = true.
Proof.
  intros (pre & post & -> & <-). apply startswith_prefix. exists post.
  unfold len. rewrite Nat2Z.id. apply drop_app_length.
Qed.

Lemma occurs_at_bounds q text j :
  occurs_at q text j → 0 ≤ j ∧ j + len q ≤ len text.
Proof.
  intros (pre & post & -> & <-). rewrite !len_app.
  pose proof (len_nonneg pre). pose proof (len_nonneg post). lia.
Qed.

(** Nothing stands between the offset the scan started from and the
    offset it returned. *)
Lemma find_at_first q t i idx j :
  0 ≤ i → find_at q t i = idx → idx ≠ -1 → i ≤ j < idx →
  startswith q (drop (Z.to_nat (j - i)) t) = false.
Proof.
  revert i. induction t as [|c t IH]; intros i Hi; simpl.
  - destruct (startswith q []); intros <-; intros; lia.
  - destruct (startswith q (c :: t)) eqn:E.
    + intros <-. lia.
    + intros Hf Hidx Hj. destruct (decide (j = i)) as [->|Hne].
      * by rewrite Z.sub_diag.
      * replace (Z.to_nat (j - i)) with (S (Z.to_nat (j - (i + 1)))) by lia.
        simpl. apply (IH (i + 1)); [lia | done | done | lia].
Qed.

Lemma find_first text q start idx j :
  0 ≤ start → find text q start = idx → idx ≠ -1 → start ≤ j < idx →
  ¬ occurs_at q text j.
Proof.
  intros Hs. unfold find. destruct (len text <? start) eqn:E; [congruence|].
  rewrite norm_index_id by lia. intros Hf Hidx Hj Hocc.
  apply occurs_at_startswith in Hocc.
  pose proof (find_at_first _ _ _ _ _ Hs Hf Hidx Hj) as Hno.
  rewrite drop_drop in Hno.
  replace (Z.to_nat start + Z.to_nat (j - start))%nat with (Z.to_nat j)
    in Hno by lia.
  congruence.
Qed.

(** When [find] returns [-1], nothing stands at or after [start]. *)
Lemma find_none text q start j :
  0 ≤ start → find text q start = -1 → start ≤ j → ¬ occurs_at q text j.
Proof.
  intros Hs Hf Hj Hocc. destruct (occurs_at_bounds _ _ _ Hocc) as [_ Hb].
  pose proof (len_nonneg q).
  destruct Hocc as (pre & post & Ht & Hpre).
  unfold find in Hf. destruct (len text <? start) eqn:E; [lia|].
  rewrite norm_index_id in Hf by lia.
  assert (drop (Z.to_nat start) text
            = drop (Z.to_nat start) pre ++ q ++ post) as Hd.
  { rewrite Ht. apply drop_app_le. unfold len in Hpre. lia. }
  rewrite Hd in Hf. by apply find_at_complete in Hf.
Qed.

(** ** What the scanning loop collects *)

Section scan_result.
Context (text q : str) (max_snippets snippet_radius : Z).
Context (q_nonempty : q ≠ []).

Local Abbreviation scan_from fuel start found_count acc :=
  (scan fuel text q max_snippets snippet_radius start found_count acc).

(** The snippets collected so far only ever get longer: the list passed in
    is a prefix of the list returned. *)
Lemma scan_acc fuel start found_count acc :
  scan_from fuel start found_count acc
    = (acc ++.) <$> scan_from fuel start found_count [].
Proof.
  revert start found_count acc.
  induction fuel as [|fuel IH]; intros start fc acc; [done|].
  cbn [scan]. destruct (_ =? -1); [simpl; by rewrite app_nil_r|].
  destruct (_ >=? _); [done|].
  rewrite IH. rewrite (IH _ _ ([] ++ _)).
  destruct (scan_from fuel _ _ []); simpl; [|done].
  by rewrite <- (assoc app).
Qed.

(** One iteration, with the snippets of the later iterations put after
    the snippet of this one. *)
Lemma scan_step fuel start found_count :
  scan_from (S fuel) start found_count []
    = let idx := find text q start in
      let sn := {| snip_text :=
                     slice text (Z.max 0 (idx - snippet_radius))
                       (Z.min (len text) (idx + len q + snippet_radius));
                   snip_start := idx; snip_end := idx + len q |} in
      if idx =? -1 then Some []
      else if found_count + 1 >=? max_snippets then Some [sn]
      else (sn ::.) <$> scan_from fuel (idx + len q) (found_count + 1) [].
Proof.
  cbn [scan]. cbv zeta. destruct (_ =? -1); [done|].
  destruct (_ >=? _); [done|]. by rewrite scan_acc.
Qed.

(** Every occurrence of the query at or after the offset the loop starts
    from begins inside a collected range, unless the loop left on the
    limit, and then it may also begin at or after the end of every
    collected range. *)
Lemma scan_covers fuel start found_count r j :
  0 ≤ start →
  scan_from fuel start found_count [] = Some r →
  start ≤ j → occurs_at q text j →
  covered r j
  ∨ (max_snippets ≤ found_count + Z.of_nat (length r)
     ∧ ∀ sn, sn ∈ r → snip_end sn ≤ j).
Proof using q_nonempty.
  revert start found_count r.
  induction fuel as [|fuel IH]; intros start fc r Hs; [done|].
  rewrite scan_step. cbv zeta.
  destruct (find text q start =? -1) eqn:Ef.
  { apply Z.eqb_eq in Ef. intros _ Hj Hocc.
    by destruct (find_none _ _ _ _ Hs Ef Hj Hocc). }
  apply Z.eqb_neq in Ef.
  destruct (find_sound _ _ _ _ Hs eq_refl Ef) as (Hle & Hend & _).
  set (idx := find text q start) in *.
  set (sn := {| snip_start := idx |}).
  pose proof (len_q_pos q q_nonempty) as Hq.
  assert (∀ Hj : start ≤ j, occurs_at q text j → idx ≤ j) as Hfirst.
  { intros Hj Hocc. destruct (decide (idx ≤ j)) as [|Hn]; [done|].
    destruct (find_first text q start idx j Hs eq_refl Ef); [lia|done]. }
  destruct (_ >=? _) eqn:El.
  - apply Z.geb_le in El. intros [= <-] Hj Hocc. pose proof (Hfirst Hj Hocc).
    destruct (decide (j < idx + len q)).
    + left. exists sn. split; [apply elem_of_cons; auto | simpl; lia].
    + right. split; [simpl; lia|].
      intros sn' ->%list_elem_of_singleton. simpl. lia.
  - destruct (scan_from fuel _ _ []) as [r'|] eqn:Es; [|done].
    intros [= <-] Hj Hocc. pose proof (Hfirst Hj Hocc).
    destruct (decide (j < idx + len q)).
    { left. exists sn. split; [apply elem_of_cons; auto | simpl; lia]. }
    destruct (IH (idx + len q) (fc + 1) r' ltac:(lia) Es ltac:(lia) Hocc)
      as [(sn' & Hin & Hr)|[Hlim Hall]].
    + left. exists sn'. split; [apply elem_of_cons; auto | done].
    + right. split; [simpl; lia|].
      intros sn' [->|Hin]%elem_of_cons; [simpl; lia | auto].
Qed.

(** The loop collects something exactly when the query occurs in the text
    at or after the offset it starts from. *)
Lemma scan_nonempty fuel start found_count r :
  0 ≤ start →
  scan_from fuel start found_count [] = Some r →
  r ≠ [] ↔ ∃ j, start ≤ j ∧ occurs_at q text j.
Proof.
  intros Hs. destruct fuel as [|fuel]; [done|].
  rewrite scan_step. cbv zeta.
  destruct (find text q start =? -1) eqn:Ef.
  - apply Z.eqb_eq in Ef. intros [= <-]. split; [done|].
    intros (j & Hj & Hocc). by destruct (find_none _ _ _ _ Hs Ef Hj Hocc).
  - apply Z.eqb_neq in Ef.
    destruct (find_sound _ _ _ _ Hs eq_refl Ef) as (Hle & _ & pre & post & ?).
    intros Hr. split.
    + intros _. exists (find text q start). split; [done|].
      by exists pre, post.
    + intros _. destruct (_ >=? _); [by injection Hr as <-|].
      destruct (scan_from fuel _ _ []); [by injection Hr as <-|done].
Qed.

End scan_result.

(** ** What the loop over the keys collects *)

Section keys_result.
Context (st : dict) (q : str) (max_snippets snippet_radius : Z).

Local Arguments scan : simpl never.

Local Abbreviation search_from keys acc :=
  (search_keys st q max_snippets snippet_radius keys acc).

(** The entries collected so far are kept; the new ones follow the order
    of the keys and none of them is empty. *)
Lemma search_keys_new keys acc r :
  search_from keys acc = Some r →
  ∃ new, r = acc ++ new ∧
    (memory_key <$> new) `sublist_of` keys ∧
    Forall (λ m, snippets m ≠ []) new.
Proof.
  revert acc. induction keys as [|key rest IH]; intros acc; simpl.
  { intros [= <-]. exists []. by rewrite app_nil_r. }
  assert (∀ acc', search_from rest acc' = Some r →
            ∃ new, r = acc' ++ new ∧
              (memory_key <$> new) `sublist_of` key :: rest ∧
              Forall (λ m, snippets m ≠ []) new) as IH'.
  { intros acc' (new & ? & ? & ?)%IH. exists new.
    split; [done|]. split; [by apply sublist_cons | done]. }
  destruct (dict_get st key) as [[[|c t]| | |]|] eqn:Eg; simpl; try apply IH'.
  destruct (scan _ _ _ _ _ _ _ _) as [found|] eqn:Es; simpl; [|done].
  destruct found as [|sn found]; [apply IH'|].
  intros (new & -> & Hsub & Hne)%IH.
  eexists (_ :: new). split; [by rewrite <- (assoc app)|].
  split; [by apply sublist_skip | by apply Forall_cons].
Qed.

(** A key that is searched and holds a text in which the query occurs
    gets an entry. *)
Lemma search_keys_finds keys acc r key text :
  q ≠ [] → search_from keys acc = Some r →
  key ∈ keys → dict_get st key = Some (VStr text) → occurs_in q text →
  ∃ m, m ∈ r ∧ memory_key m = key.
Proof.
  intros Hq Hr Hkey Hg (pre & post & Htext).
  revert acc Hr Hkey. induction keys as [|key0 rest IH]; intros acc Hr Hkey.
  { by apply elem_of_nil in Hkey. }
  simpl in Hr. destruct (decide (key0 = key)) as [->|Hne].
  - rewrite Hg in Hr. simpl in Hr. destruct text as [|c t].
    { by destruct pre, q. }
    destruct (scan _ _ _ _ _ _ _ _) as [found|] eqn:Es; simpl in Hr; [|done].
    assert (found ≠ []) as Hfound.
    { eapply (scan_nonempty (c :: t) q); [| exact Es |]; [lia|].
      exists (len pre). split; [apply len_nonneg | by exists pre, post]. }
    destruct found as [|sn found]; [done|].
    apply search_keys_new in Hr as (new & -> & _).
    exists {| memory_key := key; snippets := sn :: found |}.
    split; [|reflexivity].
    apply elem_of_app. left. apply elem_of_app. right.
    by apply list_elem_of_singleton.
  - apply elem_of_cons in Hkey as [?|Hkey]; [congruence|].
    destruct (default _ _) as [[|c t]| | |]; try by eapply IH.
    destruct (scan _ _ _ _ _ _ _ _) as [found|]; simpl in Hr; [|done].
    by eapply IH.
Qed.

(** Every entry comes from a searched key that holds a text, and carries
    the snippets collected from that text, of which there is at least
    one. *)
Lemma search_keys_entry keys r m :
  search_from keys [] = Some r → m ∈ r →
  ∃ text, memory_key m ∈ keys ∧
    dict_get st (memory_key m) = Some (VStr text) ∧
    scan (scan_fuel text) text q max_snippets snippet_radius 0 0 []
      = Some (snippets m) ∧
    snippets m ≠ [].
Proof.
  intros Hr Hm.
  destruct (search_keys_origin _ _ _ _ _ _ _ _ Hr Hm)
    as [?%elem_of_nil|(text & ? & ? & ?)]; [done|].
  apply search_keys_new in Hr as (new & -> & _ & Hne).
  exists text. repeat split; try done.
  by apply (proj1 (Forall_forall _ _) Hne).
Qed.

End keys_result.

Lemma search_memory_success_inv query memory_keys max_snippets
    snippet_radius ctx q ms :
  search_memory query memory_keys max_snippets snippet_radius (Some ctx)
    = Some (SearchSuccess q ms) →
  q = strip (or_str query []) ∧ q ≠ [] ∧
  search_keys (state ctx) q max_snippets snippet_radius
    (keys_to_search memory_keys (state ctx)) [] = Some ms.
Proof.
  unfold search_memory. destruct (strip _) as [|c q'] eqn:E; [done|].
  destruct (search_keys _ _ _ _ _ _) as [ms'|] eqn:Ek; simpl; [|done].
  intros [= <- <-]. done.
Qed.

(** Every entry of a successful search, traced to its text and its scan. *)
Lemma search_memory_entry query memory_keys max_snippets snippet_radius
    ctx q ms m :
  search_memory query memory_keys max_snippets snippet_radius (Some ctx)
    = Some (SearchSuccess q ms) →
  m ∈ ms →
  q ≠ [] ∧
  ∃ text, memory_key m ∈ keys_to_search memory_keys (state ctx) ∧
    dict_get (state ctx) (memory_key m) = Some (VStr text) ∧
    scan (scan_fuel text) text q max_snippets snippet_radius 0 0 []
      = Some (snippets m) ∧
    snippets m ≠ [].
Proof.
  intros (_ & Hq & Hk)%search_memory_success_inv Hm. split; [done|].
  by eapply search_keys_entry.
Qed.

(** ** Stripping and windows *)

Lemma lstrip_decompose s :
  ∃ pre, s = pre ++ lstrip s ∧ whitespace_only pre.
Proof.
  unfold whitespace_only.
  induction s as [|c s (pre & IH & Hpre)]; simpl.
  - exists []. split; [done | apply Forall_nil_2].
  - destruct (isspace c) eqn:E.
    + exists (c :: pre). split; [simpl; congruence | by apply Forall_cons].
    + exists []. split; [done | apply Forall_nil_2].
Qed.

Lemma lstrip_head s c : head (lstrip s) = Some c → isspace c = false.
Proof.
  induction s as [|d s IH]; simpl; [done|].
  destruct (isspace d) eqn:E; [done|]. simpl. congruence.
Qed.

Lemma rstrip_decompose t :
  ∃ post, t = rstrip t ++ post ∧ whitespace_only post.
Proof.
  destruct (lstrip_decompose (reverse t)) as (pre & Ht & Hpre).
  exists (reverse pre). split; [|unfold whitespace_only; by apply Forall_reverse].
  unfold rstrip. rewrite <- reverse_app, <- Ht. by rewrite reverse_involutive.
Qed.

Lemma rstrip_last t c : last (rstrip t) = Some c → isspace c = false.
Proof. unfold rstrip. rewrite last_reverse. apply lstrip_head. Qed.

(** What [strip] removes is white space at the two ends, and what it
    leaves has none there. *)
Lemma strip_decompose s :
  ∃ pre post, s = pre ++ strip s ++ post ∧
    whitespace_only pre ∧ whitespace_only post ∧ trimmed (strip s).
Proof.
  destruct (lstrip_decompose s) as (pre & Hs & Hpre).
  destruct (rstrip_decompose (lstrip s)) as (post & Hl & Hpost).
  exists pre, post. unfold strip. split; [congruence|].
  do 2 (split; [done|]). split; [|apply rstrip_last].
  intros c Hc. apply (lstrip_head s). rewrite Hl.
  by destruct (rstrip (lstrip s)).
Qed.

(** A slice within bounds cuts the text in three. *)
Lemma slice_cut text a b :
  0 ≤ a → a ≤ b → b ≤ len text →
  text = take (Z.to_nat a) text ++ slice text a b ++ drop (Z.to_nat b) text.
Proof.
  intros Ha Hab Hb. unfold slice. rewrite !norm_index_id by lia.
  replace (drop (Z.to_nat b) text)
    with (drop (Z.to_nat (b - a)) (drop (Z.to_nat a) text)).
  - by rewrite !take_drop.
  - rewrite drop_drop. f_equal. lia.
Qed.

Lemma recorded_occurs_at text q radius sn :
  recorded_in text q radius sn → occurs_at q text (snip_start sn).
Proof.
  intros ((H0 & Hle & Hlen) & _ & _ & Hq).
  exists (take (Z.to_nat (snip_start sn)) text),
         (drop (Z.to_nat (snip_end sn)) text).
  split.
  - rewrite <- Hq. apply slice_cut; lia.
  - unfold len in *. rewrite length_take. lia.
Qed.

(** With a radius that is not negative, the window around an occurrence is
    the occurrence with up to [radius] characters on either side. *)
Lemma window_around pre q post radius :
  0 ≤ radius →
  ∃ pre' before after post',
    pre = pre' ++ before ∧ post = after ++ post' ∧
    slice (pre ++ q ++ post) (Z.max 0 (len pre - radius))
      (Z.min (len (pre ++ q ++ post)) (len pre + len q + radius))
      = before ++ q ++ after ∧
    len before = Z.min (len pre) radius ∧
    len after = Z.min (len post) radius.
Proof.
  intros Hr.
  pose proof (len_nonneg pre). pose proof (len_nonneg q).
  pose proof (len_nonneg post).
  set (a := Z.to_nat (Z.max 0 (len pre - radius))).
  set (n := Z.to_nat (Z.min (len post) radius)).
  exists (take a pre), (drop a pre), (take n post), (drop n post).
  split; [by rewrite take_drop|]. split; [by rewrite take_drop|].
  split; [|split].
  - unfold slice. rewrite !norm_index_id by (rewrite !len_app; lia).
    fold a. rewrite drop_app_le by (unfold len in *; lia).
    rewrite !len_app.
    rewrite take_app_ge by (unfold len in *; rewrite length_drop; lia).
    rewrite take_app_ge by (unfold len in *; rewrite length_drop; lia).
    do 3 f_equal. unfold len in *. rewrite length_drop. lia.
  - unfold len in *. rewrite length_drop. lia.
  - unfold len in *. rewrite length_take. lia.
Qed.

(** ** More on [search_memory] *)

(** X1. Every entry of the matches holds at least one snippet, and at most
    [max_snippets] of them when that limit is at least one (one snippet
    when the limit is below one). *)
Theorem search_memory_entry_sizes query memory_keys max_snippets
    snippet_radius ctx q ms m :
  search_memory query memory_keys max_snippets snippet_radius (Some ctx)
    = Some (SearchSuccess q ms) →
  m ∈ ms →
  1 ≤ Z.of_nat (length (snippets m)) ≤ Z.max 1 max_snippets.
Proof.
  intros Hr Hm.
  destruct (search_memory_entry _ _ _ _ _ _ _ _ Hr Hm)
    as (_ & text & _ & _ & Hs & Hne).
  apply scan_count in Hs. simpl in Hs.
  destruct (snippets m); [done|]. simpl in *. lia.
Qed.

Lemma search_memory_entry_sizes_witness :
  1 ≤ Z.of_nat (length (snippets sample_entry)) ≤ Z.max 1 5.
Proof.
  apply (search_memory_entry_sizes (Some (lit " ab ")) None 5 1
           sample_context (lit "ab") [sample_entry] sample_entry eq_refl).
  apply elem_of_cons. by left.
Defined.

(** X2. The keys of the entries, in the order of the entries, are taken in
    order from the keys searched: an explicit non-empty [memory_keys]
    confines the matches to its keys and fixes their order. *)
Theorem search_memory_entries_follow_keys query memory_keys max_snippets
    snippet_radius ctx q ms :
  search_memory query memory_keys max_snippets snippet_radius (Some ctx)
    = Some (SearchSuccess q ms) →
  (memory_key <$> ms) `sublist_of` keys_to_search memory_keys (state ctx).
Proof.
  intros (_ & _ & Hk)%search_memory_success_inv.
  by apply search_keys_new in Hk as (new & -> & ? & _).
Qed.

Lemma search_memory_entries_follow_keys_witness :
  [lit "a"] `sublist_of` [lit "b"; lit "zz"; lit "a"].
Proof.
  apply (search_memory_entries_follow_keys (Some (lit " ab "))
           (Some [lit "b"; lit "zz"; lit "a"]) 5 1 sample_context
           (lit "ab") [sample_entry] eq_refl).
Defined.

(** An entry exists for a key exactly when the key is searched and holds
    a text in which the query occurs. *)
Lemma search_memory_has_entry query memory_keys max_snippets
    snippet_radius ctx q ms k :
  search_memory query memory_keys max_snippets snippet_radius (Some ctx)
    = Some (SearchSuccess q ms) →
  (∃ m, m ∈ ms ∧ memory_key m = k)
  ↔ k ∈ keys_to_search memory_keys (state ctx) ∧
    ∃ text, dict_get (state ctx) k = Some (VStr text) ∧ occurs_in q text.
Proof.
  intros Hr. split.
  - intros (m & Hm & <-).
    destruct (search_memory_entry _ _ _ _ _ _ _ _ Hr Hm)
      as (Hq & text & Hin & Hg & Hs & Hne).
    split; [done|]. exists text. split; [done|].
    apply scan_from_start in Hs as [Hrec _]; [|done].
    destruct (snippets m) as [|sn l]; [done|].
    apply Forall_cons in Hrec as [Hsn _].
    destruct (recorded_occurs_at _ _ _ _ Hsn) as (pre & post & ? & _).
    by exists pre, post.
  - intros (Hin & text & Hg & Hocc).
    apply search_memory_success_inv in Hr as (_ & Hq & Hk).
    by eapply search_keys_finds.
Qed.

(** X3. A key has an entry in the matches exactly when it is among the
    keys searched, holds a text in the state, and the stripped query
    occurs in that text. Keys that are missing from the state, hold
    something that is not a text, or hold a text without the query leave
    no entry. *)
Theorem search_memory_entry_iff query memory_keys max_snippets
    snippet_radius ctx q ms k :
  search_memory query memory_keys max_snippets snippet_radius (Some ctx)
    = Some (SearchSuccess q ms) →
  (∃ m, m ∈ ms ∧ memory_key m = k)
  ↔ k ∈ keys_to_search memory_keys (state ctx) ∧
    ∃ text, dict_get (state ctx) k = Some (VStr text) ∧ occurs_in q text.
Proof. apply search_memory_has_entry. Qed.

Lemma search_memory_entry_iff_witness :
  (∃ m, m ∈ [sample_entry] ∧ memory_key m = lit "b")
  ↔ lit "b" ∈ [lit "a"; lit "b"] ∧
    ∃ text, dict_get (state sample_context) (lit "b") = Some (VStr text)
            ∧ occurs_in (lit "ab") text.
Proof.
  apply (search_memory_entry_iff (Some (lit " ab ")) None 5 1 sample_context
           (lit "ab") [sample_entry] (lit "b") eq_refl).
Defined.

(** X4. No occurrence is passed over. Every occurrence of the stripped
    query in a text that has an entry begins inside one of the reported
    ranges; only when the entry holds [max_snippets] snippets or more can
    an occurrence lie elsewhere, and then it begins at or after the end of
    every reported range. *)
Theorem search_memory_occurrences_covered query memory_keys max_snippets
    snippet_radius ctx q ms m text j :
  search_memory query memory_keys max_snippets snippet_radius (Some ctx)
    = Some (SearchSuccess q ms) →
  m ∈ ms →
  dict_get (state ctx) (memory_key m) = Some (VStr text) →
  occurs_at q text j →
  covered (snippets m) j
  ∨ (max_snippets ≤ Z.of_nat (length (snippets m))
     ∧ ∀ sn, sn ∈ snippets m → snip_end sn ≤ j).
Proof.
  intros Hr Hm Hg Hocc.
  destruct (search_memory_entry _ _ _ _ _ _ _ _ Hr Hm)
    as (Hq & text' & _ & Hg' & Hs & _).
  assert (text' = text) as -> by congruence.
  destruct (occurs_at_bounds _ _ _ Hocc) as [Hj _].
  destruct (scan_covers text q max_snippets snippet_radius Hq _ 0 0 _ j
              ltac:(lia) Hs Hj Hocc) as [?|[? ?]]; [by left|right].
  split; [lia | done].
Qed.

Lemma search_memory_occurrences_covered_witness :
  covered (snippets sample_entry) 2
  ∨ (5 ≤ Z.of_nat (length (snippets sample_entry))
     ∧ ∀ sn, sn ∈ snippets sample_entry → snip_end sn ≤ 2).
Proof.
  apply (search_memory_occurrences_covered (Some (lit " ab ")) None 5 1
           sample_context (lit "ab") [sample_entry] sample_entry
           (lit "ababxab") 2 eq_refl).
  - apply elem_of_cons. by left.
  - reflexivity.
  - exists (lit "ab"), (lit "xab"). split; reflexivity.
Defined.

(** X5. The offsets of a snippet locate the stripped query: it stands in
    the text at [start], and [end] is [start] plus its length. *)
Theorem search_memory_range_spells_query query memory_keys max_snippets
    snippet_radius ctx q ms m sn text :
  search_memory query memory_keys max_snippets snippet_radius (Some ctx)
    = Some (SearchSuccess q ms) →
  m ∈ ms → sn ∈ snippets m →
  dict_get (state ctx) (memory_key m) = Some (VStr text) →
  occurs_at q text (snip_start sn) ∧ snip_end sn = snip_start sn + len q.
Proof.
  intros Hr Hm Hsn Hg.
  destruct (search_memory_entry _ _ _ _ _ _ _ _ Hr Hm)
    as (Hq & text' & _ & Hg' & Hs & _).
  assert (text' = text) as -> by congruence.
  apply scan_from_start in Hs as [Hrec _]; [|done].
  pose proof (proj1 (Forall_forall _ _) Hrec sn Hsn) as Hsn'.
  split; [by eapply recorded_occurs_at | apply Hsn'].
Qed.

Lemma search_memory_range_spells_query_witness :
  occurs_at (lit "ab") (lit "ababxab") 5 ∧ 7 = 5 + len (lit "ab").
Proof.
  apply (search_memory_range_spells_query (Some (lit " ab ")) None 5 1
           sample_context (lit "ab") [sample_entry] sample_entry
           {| snip_text := lit "xab"; snip_start := 5; snip_end := 7 |}
           (lit "ababxab") eq_refl).
  - apply elem_of_cons. by left.
  - do 2 (apply elem_of_cons; right). apply elem_of_cons. by left.
  - reflexivity.
Defined.

(** X6. With a radius that is not negative, the text of a snippet is the
    stripped query with the [min(start, radius)] characters that precede
    it in the text and the [min(len(text) - end, radius)] characters that
    follow it. *)
Theorem search_memory_snippet_shape query memory_keys max_snippets
    snippet_radius ctx q ms m sn text :
  0 ≤ snippet_radius →
  search_memory query memory_keys max_snippets snippet_radius (Some ctx)
    = Some (SearchSuccess q ms) →
  m ∈ ms → sn ∈ snippets m →
  dict_get (state ctx) (memory_key m) = Some (VStr text) →
  ∃ pre before after post,
    text = (pre ++ before) ++ q ++ (after ++ post) ∧
    snip_text sn = before ++ q ++ after ∧
    len (pre ++ before) = snip_start sn ∧
    len before = Z.min (snip_start sn) snippet_radius ∧
    len after = Z.min (len text - snip_end sn) snippet_radius.
Proof.
  intros Hrad Hr Hm Hsn Hg.
  destruct (search_memory_entry _ _ _ _ _ _ _ _ Hr Hm)
    as (Hq & text' & _ & Hg' & Hs & _).
  assert (text' = text) as -> by congruence.
  apply scan_from_start in Hs as [Hrec _]; [|done].
  pose proof (proj1 (Forall_forall _ _) Hrec sn Hsn) as Hsn'.
  destruct (recorded_occurs_at _ _ _ _ Hsn') as (p & s & Ht & Hp).
  destruct Hsn' as (_ & Hend & Hw & _).
  destruct (window_around p q s snippet_radius Hrad)
    as (pre & before & after & post & -> & -> & Hsl & Hb & Ha).
  exists pre, before, after, post.
  split; [done|]. split.
  { rewrite Hw. unfold window. rewrite Hend, <- Hp, Ht. exact Hsl. }
  split; [done|]. split; [by rewrite <- Hp|].
  rewrite Ha, Hend, <- Hp, Ht, !len_app. f_equal. lia.
Qed.

Lemma search_memory_snippet_shape_witness :
  ∃ pre before after post,
    lit "ababxab" = (pre ++ before) ++ lit "ab" ++ (after ++ post) ∧
    lit "babx" = before ++ lit "ab" ++ after ∧
    len (pre ++ before) = 2 ∧
    len before = Z.min 2 1 ∧
    len after = Z.min (len (lit "ababxab") - 4) 1.
Proof.
  apply (search_memory_snippet_shape (Some (lit " ab ")) None 5 1
           sample_context (lit "ab") [sample_entry] sample_entry
           {| snip_text := lit "babx"; snip_start := 2; snip_end := 4 |}
           (lit "ababxab") ltac:(lia) eq_refl).
  - apply elem_of_cons. by left.
  - apply elem_of_cons. right. apply elem_of_cons. by left.
  - reflexivity.
Defined.

(** X7. The query a successful search reports and searches for is the
    query it was given without the white space at its two ends: it is not
    empty, neither starts nor ends with white space, and only white space
    was dropped. *)
Theorem search_memory_query_trimmed query memory_keys max_snippets
    snippet_radius ctx q ms :
  search_memory query memory_keys max_snippets snippet_radius (Some ctx)
    = Some (SearchSuccess q ms) →
  q ≠ [] ∧ trimmed q ∧
  ∃ given pre post, query = Some given ∧ given = pre ++ q ++ post ∧
    whitespace_only pre ∧ whitespace_only post.
Proof.
  intros (-> & Hq & _)%search_memory_success_inv.
  destruct (strip_decompose (or_str query [])) as (pre & post & Hs & ? & ? & ?).
  do 2 (split; [done|]).
  destruct query as [[|c given]|]; simpl in *; [done| |done].
  by exists (c :: given), pre, post.
Qed.

Lemma search_memory_query_trimmed_witness :
  lit "ab" ≠ [] ∧ trimmed (lit "ab") ∧
  ∃ given pre post, Some (lit " ab ") = Some given ∧
    given = pre ++ lit "ab" ++ post ∧
    whitespace_only pre ∧ whitespace_only post.
Proof.
  apply (search_memory_query_trimmed (Some (lit " ab ")) None 5 1
           sample_context (lit "ab") [sample_entry] eq_refl).
Defined.

(** ** More on [read_pdf] *)

Lemma dict_set_same d k v : dict_get d k = Some v → dict_set d k v = d.
Proof.
  induction d as [|[k0 v0] d IH]; simpl; [done|].
  destruct (decide (k0 = k)) as [->|Hne].
  - by intros [= ->].
  - intros H. by rewrite IH.
Qed.

Lemma dict_set_keeps d k v k' :
  is_Some (dict_get d k') → is_Some (dict_get (dict_set d k v) k').
Proof. rewrite dict_get_set. by case_decide. Qed.

Section store_text_more.
Context (st : dict) (memory_key content : str).

(** The writes touch no key beyond the given key and its aliases. *)
Lemma store_text_frame k :
  ¬ written_by memory_key k →
  dict_get (store_text st memory_key content) k = dict_get st k.
Proof.
  intros Hk. unfold store_text. rewrite or_str_some.
  destruct (looks_like_cv _) eqn:Ecv, (looks_like_jd _) eqn:Ejd;
    rewrite ?dict_get_set; repeat case_decide; try done;
    destruct Hk; unfold written_by;
    rewrite <- looks_like_cv_spec, <- looks_like_jd_spec; auto.
Qed.

Lemma store_text_keeps k :
  is_Some (dict_get st k) →
  is_Some (dict_get (store_text st memory_key content) k).
Proof.
  intros Hk. unfold store_text.
  destruct (looks_like_cv _), (looks_like_jd _);
    repeat apply dict_set_keeps; done.
Qed.

(** Storing the same text again changes nothing. *)
Lemma store_text_again :
  store_text (store_text st memory_key content) memory_key content
    = store_text st memory_key content.
Proof.
  set (st1 := store_text st memory_key content).
  pose proof (store_text_key st memory_key content) as Hk.
  pose proof (store_text_cv st memory_key content) as Hcv.
  pose proof (store_text_jd st memory_key content) as Hjd.
  rewrite <- looks_like_cv_spec in Hcv. rewrite <- looks_like_jd_spec in Hjd.
  fold st1 in Hk, Hcv, Hjd.
  unfold store_text at 1. rewrite or_str_some.
  rewrite (dict_set_same st1 _ _ Hk).
  destruct (looks_like_cv _).
  - rewrite (dict_set_same st1 _ _ (Hcv eq_refl)).
    destruct (looks_like_jd _); [|done].
    by rewrite (dict_set_same st1 _ _ (Hjd eq_refl)).
  - destruct (looks_like_jd _); [|done].
    by rewrite (dict_set_same st1 _ _ (Hjd eq_refl)).
Qed.

End store_text_more.

(** X8. [read_pdf] reports success exactly when the file exists, the PDF
    library returns its pages and there is a tool context. When only the
    tool context is missing, the text is extracted and dropped: the result
    is the "Session context missing" error, under the key "message". *)
Theorem read_pdf_success_iff w file_path memory_key max_chars tool_context :
  (read_status (read_pdf w file_path memory_key max_chars tool_context).1
     = lit "success"
   ↔ path_exists w file_path = true ∧
     (∃ texts, pdf_reader w file_path = Pages texts) ∧
     (∃ ctx, tool_context = Some ctx)) ∧
  (path_exists w file_path = true →
   (∃ texts, pdf_reader w file_path = Pages texts) →
   tool_context = None →
   read_pdf w file_path memory_key max_chars tool_context
     = (ReadNoContext
          (lit "Session context missing, content not saved to memory."),
        None)).
Proof.
  unfold read_pdf. destruct (path_exists w file_path); simpl.
  - destruct (pdf_reader w file_path) as [e|texts]; simpl.
    + split; [|by intros _ [? ?]].
      split; [intros H; discriminate H | by intros (_ & [? ?] & _)].
    + destruct tool_context as [ctx|]; simpl.
      * split; [|done]. split; [eauto|done].
      * split; [|done].
        split; [intros H; discriminate H | by intros (_ & _ & [? ?])].
  - split; [|done]. split; [intros H; discriminate H | by intros [? _]].
Qed.

(** X9. A call of [read_pdf] leaves every entry of the state as it was,
    except the entry of [memory_key], the entry of "pdf_resume_text" when
    the lowercased key looks like a resume key, and the entry of
    "job_description_text" when it looks like a job-description key; and
    it removes no entry. *)
Theorem read_pdf_frame w file_path memory_key max_chars ctx r ctx' :
  read_pdf w file_path memory_key max_chars (Some ctx) = (r, Some ctx') →
  (∀ k, ¬ written_by memory_key k →
        dict_get (state ctx') k = dict_get (state ctx) k) ∧
  (∀ k, is_Some (dict_get (state ctx) k) →
        is_Some (dict_get (state ctx') k)).
Proof.
  unfold read_pdf. destruct (negb _); [by intros [= <- <-]|].
  destruct (pdf_reader w file_path); [by intros [= <- <-]|].
  intros [= <- <-]. simpl. split.
  - intros k Hk. by apply store_text_frame.
  - intros k Hk. by apply store_text_keeps.
Qed.

Lemma read_pdf_frame_witness :
  ∃ ctx',
    (∀ k, ¬ written_by (lit "cv_notes") k →
          dict_get (state ctx') k = dict_get (state sample_context) k) ∧
    (∀ k, is_Some (dict_get (state sample_context) k) →
          is_Some (dict_get (state ctx') k)).
Proof.
  eexists.
  apply (read_pdf_frame world_abc (lit "a.pdf") (lit "cv_notes") 120000
           sample_context _ _ eq_refl).
Defined.

(** X10. Reading the same file into the same key again changes nothing:
    a second call of [read_pdf] with the arguments of the first, on the
    tool context the first left, returns the same result and leaves the
    same tool context. *)
Theorem read_pdf_again w file_path memory_key max_chars tool_context :
  read_pdf w file_path memory_key max_chars
    (read_pdf w file_path memory_key max_chars tool_context).2
  = read_pdf w file_path memory_key max_chars tool_context.
Proof.
  unfold read_pdf. destruct (negb _); [done|].
  destruct (pdf_reader w file_path); [done|].
  destruct tool_context as [ctx|]; [|done]. simpl.
  by rewrite store_text_again.
Qed.

(** What a call of [read_pdf] does to the state does not depend on the
    state: nothing, or the writes of one text. *)
Lemma state_after_read_cases w file_path memory_key max_chars :
  (∀ st, state_after_read w file_path memory_key max_chars st = st)
  ∨ ∃ content, ∀ st,
      state_after_read w file_path memory_key max_chars st
        = store_text st memory_key content.
Proof.
  unfold state_after_read, after_read, read_pdf.
  destruct (negb _); [by left|].
  destruct (pdf_reader w file_path); [by left|]. right. by eexists.
Qed.

Lemma store_text_cv_lookup st content k :
  dict_get (store_text st CV_MEMORY_KEY content) k
    = if decide (CV_MEMORY_KEY = k) then Some (VStr content)
      else dict_get st k.
Proof.
  unfold store_text. rewrite or_str_some.
  change (looks_like_cv (lower CV_MEMORY_KEY)) with true.
  change (looks_like_jd (lower CV_MEMORY_KEY)) with false.
  cbv iota. rewrite !dict_get_set. by case_decide.
Qed.

Lemma store_text_jd_lookup st content k :
  dict_get (store_text st JD_MEMORY_KEY content) k
    = if decide (JD_MEMORY_KEY = k) then Some (VStr content)
      else dict_get st k.
Proof.
  unfold store_text. rewrite or_str_some.
  change (looks_like_cv (lower JD_MEMORY_KEY)) with false.
  change (looks_like_jd (lower JD_MEMORY_KEY)) with true.
  cbv iota. rewrite !dict_get_set. by case_decide.
Qed.

(** X11. The two loader calls commute. Reading a resume into
    "pdf_resume_text" and a job description into "job_description_text"
    leaves every key of the state with the same value whichever call runs
    first, for every world, paths, limits and starting state: neither
    canonical key looks like the other kind of key, so neither call
    touches the entry of the other. *)
Theorem loader_reads_commute w path_cv path_jd max_cv max_jd st k :
  dict_get (state_after_read w path_jd JD_MEMORY_KEY max_jd
              (state_after_read w path_cv CV_MEMORY_KEY max_cv st)) k
  = dict_get (state_after_read w path_cv CV_MEMORY_KEY max_cv
                (state_after_read w path_jd JD_MEMORY_KEY max_jd st)) k.
Proof.
  destruct (state_after_read_cases w path_cv CV_MEMORY_KEY max_cv)
    as [Hcv|[c Hcv]];
  destruct (state_after_read_cases w path_jd JD_MEMORY_KEY max_jd)
    as [Hjd|[d Hjd]];
  rewrite ?Hcv, ?Hjd; [done..|].
  rewrite !store_text_cv_lookup, !store_text_jd_lookup,
    !store_text_cv_lookup.
  repeat case_decide; try done. by subst.
Qed.

(** X12. What [read_pdf] stores can be searched: after a successful call,
    a search of [memory_key] alone reports an entry for it exactly when
    the stripped query occurs in the text that was extracted and
    truncated. *)
Theorem read_then_search w file_path key max_chars tool_context
    r ctx' query max_snippets snippet_radius q ms :
  read_pdf w file_path key max_chars tool_context = (r, Some ctx') →
  read_status r = lit "success" →
  search_memory query (Some [key]) max_snippets snippet_radius
    (Some ctx') = Some (SearchSuccess q ms) →
  ∃ texts, pdf_reader w file_path = Pages texts ∧
    ((∃ m, m ∈ ms ∧ memory_key m = key)
     ↔ occurs_in q (truncate (full_content_of texts) max_chars)).
Proof.
  intros Hr Hs Hq.
  destruct (read_pdf_success_inv _ _ _ _ _ _ _ Hr Hs)
    as (texts & ctx & msg & Hp & -> & -> & [= ->]).
  exists texts. split; [done|].
  rewrite (search_memory_has_entry _ _ _ _ _ _ _ key Hq). simpl.
  rewrite store_text_key. split.
  - by intros (_ & text & [= <-] & ?).
  - intros Hocc. split; [apply elem_of_cons; by left | eauto].
Qed.

Lemma read_then_search_witness :
  ∃ texts, pdf_reader world_two_files (lit "cv.pdf") = Pages texts ∧
    ((∃ m, m ∈ [{| memory_key := CV_MEMORY_KEY;
                   snippets := [{| snip_text := lit "da Lovelace en";
                                   snip_start := 4; snip_end := 12 |}] |}]
           ∧ memory_key m = CV_MEMORY_KEY)
     ↔ occurs_in (lit "Lovelace")
         (truncate (full_content_of texts) 120000)).
Proof.
  apply (read_then_search world_two_files (lit "cv.pdf") CV_MEMORY_KEY
           120000 (Some {| state := [] |}) _ _ (Some (lit "Lovelace")) 5 3
           (lit "Lovelace") _ eq_refl eq_refl eq_refl).
Defined.

(** ** The text that [read_pdf] extracts *)

Lemma join_chars sep parts c :
  c ∈ join sep parts → c ∈ sep ∨ ∃ p, p ∈ parts ∧ c ∈ p.
Proof.
  induction parts as [|p [|p' rest] IH]; simpl.
  - by intros ?%elem_of_nil.
  - intros Hc. right. exists p. split; [apply elem_of_cons; by left | done].
  - intros [Hc|[Hc|Hc]%elem_of_app]%elem_of_app.
    + right. exists p. split; [apply elem_of_cons; by left | done].
    + by left.
    + destruct (IH Hc) as [?|(p0 & Hp0 & ?)]; [by left|].
      right. exists p0. split; [apply elem_of_cons; by right | done].
Qed.

(** [split] gives words: runs that are not empty and hold no white
    space. *)
Lemma split_from_words cur s :
  Forall (λ c, isspace c = false) cur → Forall is_word (split_from cur s).
Proof.
  assert (∀ cur, cur ≠ [] → Forall (λ c, isspace c = false) cur →
                 is_word (reverse cur)) as Hword.
  { intros cur' Hne Hcur. split; [|by apply Forall_reverse].
    intros Hr. apply Hne. rewrite <- (reverse_involutive cur'), Hr. done. }
  revert cur. induction s as [|c s IH]; intros cur Hcur; simpl.
  - destruct cur as [|d cur]; [done|].
    apply Forall_singleton. by apply Hword.
  - destruct (isspace c) eqn:E.
    + destruct cur as [|d cur]; [by apply IH|].
      apply Forall_cons. split; [by apply Hword | by apply IH].
    + apply IH. by apply Forall_cons.
Qed.

Lemma split_words s : Forall is_word (split s).
Proof. by apply split_from_words. Qed.

(** Reading a word moves it, last character first, in front of the run
    being read. *)
Lemma split_from_word cur w rest :
  Forall (λ c, isspace c = false) w →
  split_from cur (w ++ rest) = split_from (reverse w ++ cur) rest.
Proof.
  revert cur. induction w as [|c w IH]; intros cur Hw; [done|].
  apply Forall_cons in Hw as [Hc Hw]. simpl. rewrite Hc, IH by done.
  by rewrite reverse_cons, <- (assoc app).
Qed.

(** Joining words with a space and splitting again gives the words
    back. *)
Lemma split_join ws :
  Forall is_word ws → split (join (lit " ") ws) = ws.
Proof.
  unfold split.
  induction ws as [|w [|w' rest] IH]; intros Hws; [done| |].
  - apply Forall_cons in Hws as [[Hne Hw] _]. simpl.
    rewrite <- (app_nil_r w) at 1. rewrite split_from_word by done.
    rewrite app_nil_r. simpl.
    destruct (reverse w) eqn:Er.
    + destruct Hne. by rewrite <- (reverse_involutive w), Er.
    + by rewrite <- Er, reverse_involutive.
  - apply Forall_cons in Hws as [[Hne Hw] Hrest].
    change (join (lit " ") (w :: w' :: rest))
      with (w ++ " "%char :: join (lit " ") (w' :: rest)).
    rewrite split_from_word by done. rewrite app_nil_r.
    cbn [split_from]. change (isspace " ") with true. cbv iota.
    rewrite IH by done.
    destruct (reverse w) eqn:Er.
    + destruct Hne. by rewrite <- (reverse_involutive w), Er.
    + by rewrite <- Er, reverse_involutive.
Qed.

(** X13. The clean-up of a page, [" ".join(text.split())], is stable:
    applied to its own result it changes nothing, because splitting the
    result gives back the words of the page, each of them non-empty and
    free of white space. *)
Theorem page_cleanup_stable (text : str) :
  Forall is_word (split text) ∧
  split (join (lit " ") (split text)) = split text ∧
  join (lit " ") (split (join (lit " ") (split text)))
    = join (lit " ") (split text).
Proof.
  pose proof (split_words text) as Hw.
  split; [done|]. split; [by apply split_join|]. by rewrite split_join.
Qed.

(** X14. The text extracted from a PDF neither starts nor ends with white
    space, and every white-space character in it is a space (between two
    words of a page) or a newline (between two pages): tabs, carriage
    returns and the like never reach the state. *)
Theorem full_content_whitespace texts :
  trimmed (full_content_of texts) ∧
  ∀ c, c ∈ full_content_of texts → isspace c = true →
       c = " "%char ∨ c = "010"%char.
Proof.
  unfold full_content_of.
  set (joined := join newline _).
  destruct (strip_decompose joined) as (pre & post & Hj & _ & _ & Htrim).
  split; [done|]. intros c Hc Hsp.
  assert (c ∈ joined) as Hin.
  { rewrite Hj. apply elem_of_app. right. apply elem_of_app. by left. }
  destruct (join_chars _ _ _ Hin) as [Hnl|(p & Hp & Hcp)].
  { right. by apply list_elem_of_singleton in Hnl. }
  apply list_elem_of_fmap in Hp as (t & -> & _).
  destruct (join_chars _ _ _ Hcp) as [Hs|(word & Hword & Hcw)].
  { left. by apply list_elem_of_singleton in Hs. }
  pose proof (split_words (or_str t [])) as Hws.
  destruct (proj1 (Forall_forall _ _) Hws word Hword) as [_ Hns].
  pose proof (proj1 (Forall_forall _ _) Hns c Hcw). congruence.
Qed.

(** ** The business-case table *)

(** The invariant of the loop of [build_pdf]: [col_data] holds fewer than
    two paragraphs, the rows hold two each, and rows and [col_data]
    together hold the paragraphs read so far, in order. *)
Lemma fill_rows_invariant sections table_data col_data :
  (length col_data < 2)%nat →
  Forall (λ row, length row = 2%nat) table_data →
  (length (fill_rows sections table_data col_data).2 < 2)%nat ∧
  Forall (λ row, length row = 2%nat)
    (fill_rows sections table_data col_data).1 ∧
  concat (fill_rows sections table_data col_data).1
    ++ (fill_rows sections table_data col_data).2
  = concat table_data ++ col_data ++ (section_paragraph <$> sections).
Proof.
  revert table_data col_data.
  induction sections as [|ht rest IH]; intros td cd Hcd Htd; simpl.
  { by rewrite app_nil_r. }
  case_decide as Hfull.
  - destruct (IH (td ++ [cd ++ [section_paragraph ht]]) [])
      as (? & ? & Heq); [simpl; lia | |].
    { apply Forall_app. split; [done|]. by apply Forall_singleton. }
    do 2 (split; [done|]). rewrite Heq, concat_app. simpl.
    by rewrite app_nil_r, <- !(assoc app).
  - rewrite length_app in Hfull. simpl in Hfull.
    destruct (IH td (cd ++ [section_paragraph ht]))
      as (? & ? & Heq); [rewrite length_app; simpl; lia | done |].
    do 2 (split; [done|]). rewrite Heq. by rewrite <- !(assoc app).
Qed.

Lemma concat_pairs (rows : list (list Paragraph)) :
  Forall (λ row, length row = 2%nat) rows →
  length (concat rows) = (2 * length rows)%nat.
Proof.
  induction 1 as [|row rows Hrow _ IH]; simpl; [done|].
  rewrite length_app. lia.
Qed.

(** X15. The table of [build_pdf], for every list of sections: every row
    has exactly two cells; read row by row, the cells are the paragraphs
    of the sections in order, followed by one empty paragraph exactly when
    the number of sections is odd; so there are half as many rows as
    sections, rounded up. *)
Theorem table_rows_layout (sections : list (str * str)) :
  Forall (λ row, length row = 2%nat) (table_rows sections) ∧
  concat (table_rows sections)
    = (section_paragraph <$> sections)
      ++ (if Nat.even (length sections) then [] else [empty_paragraph]) ∧
  (2 * length (table_rows sections)
   = length sections + (if Nat.even (length sections) then 0 else 1))%nat.
Proof.
  unfold table_rows.
  destruct (fill_rows_invariant sections [] []) as (Hcd & Hrows & Heq);
    [simpl; lia | done |].
  destruct (fill_rows sections [] []) as [td cd]. simpl in *.
  pose proof (concat_pairs td Hrows) as Hlen.
  pose proof (f_equal length Heq) as Hn.
  rewrite length_app, length_fmap, Hlen in Hn.
  destruct cd as [|p [|p' cd]]; simpl in *; [| |lia].
  - rewrite app_nil_r in Heq. rewrite Nat.add_0_r in Hn.
    assert (Nat.even (length sections) = true) as ->.
    { rewrite <- Hn. apply Nat.even_spec. by exists (length td). }
    split; [done|]. split; [by rewrite app_nil_r | lia].
  - assert (Nat.even (length sections) = false) as ->.
    { rewrite <- Hn, <- Nat.negb_odd, negb_false_iff.
      apply Nat.odd_spec. by exists (length td). }
    split.
    { apply Forall_app. split; [done|]. by apply Forall_singleton. }
    split.
    + rewrite concat_app. simpl. rewrite ?app_nil_r, <- Heq.
      by rewrite <- (assoc app).
    + rewrite length_app. simpl. lia.
Qed.

(** Three sections: a full row, and a row padded with the empty
    paragraph. *)
Example table_rows_of_three :
  table_rows [(lit "A", lit "a"); (lit "B", lit "b"); (lit "C", lit "c")]
  = [[{| para_text := lit "<b>A</b><br/>a"; para_style := "BodyText" |};
      {| para_text := lit "<b>B</b><br/>b"; para_style := "BodyText" |}];
     [{| para_text := lit "<b>C</b><br/>c"; para_style := "BodyText" |};
      empty_paragraph]].
Proof. reflexivity. Qed.

(** ** The wiring of the agents *)

(** X16. Each reasoning agent is given exactly one tool: the two loaders
    the PDF reader, the screening and the matching agent the memory
    search, so that those two can reach the documents only through
    [search_memory]. The four agents have pairwise distinct names and
    pairwise distinct output keys, and no output key is one of the two
    canonical text keys that [read_pdf] writes. *)
Theorem agent_wiring :
  tools cv_loader_agent = [pdf_reader_tool] ∧
  tools jd_loader_agent = [pdf_reader_tool] ∧
  tools cv_screening_agent = [search_memory_tool] ∧
  tools talent_matching_agent = [search_memory_tool] ∧
  NoDup (name <$> call_sites root_agent) ∧
  NoDup (output_key <$> call_sites root_agent) ∧
  ∀ a, a ∈ call_sites root_agent →
       lit (output_key a) ≠ CV_MEMORY_KEY ∧
       lit (output_key a) ≠ JD_MEMORY_KEY.
Proof.
  do 4 (split; [reflexivity|]).
  split; [by apply (bool_decide_unpack _)|].
  split; [by apply (bool_decide_unpack _)|].
  intros a Ha. simpl in Ha.
  repeat (apply elem_of_cons in Ha as [->|Ha]; [by split|]).
  by apply elem_of_nil in Ha.
Qed.

(** ** More on what is stored and what is searched *)

(** X17. What [read_pdf] stores holds no text that was not extracted, for
    every [max_chars]: a successful call stores the extracted text itself,
    or, only when that text is longer than [max_chars], a prefix of it
    followed by the marker. *)
Theorem read_pdf_stores_extracted_text w file_path key max_chars
    tool_context r ctx' :
  read_pdf w file_path key max_chars tool_context = (r, ctx') →
  read_status r = lit "success" →
  ∃ texts ctx1 stored,
    pdf_reader w file_path = Pages texts ∧ ctx' = Some ctx1 ∧
    dict_get (state ctx1) key = Some (VStr stored) ∧
    (stored = full_content_of texts
     ∨ (max_chars < len (full_content_of texts) ∧
        ∃ p, p `prefix_of` full_content_of texts ∧
             stored = p ++ TRUNCATED)).
Proof.
  intros Hr Hs.
  destruct (read_pdf_success_inv _ _ _ _ _ _ _ Hr Hs)
    as (texts & ctx & msg & Hp & -> & -> & ->).
  eexists texts, _, _. do 2 (split; [done|]). simpl.
  split; [apply store_text_key|].
  unfold truncate. destruct (_ >? _) eqn:E; [right|by left].
  split; [lia|]. eexists. split; [|done].
  unfold slice.
  pose proof (len_nonneg (full_content_of texts)).
  rewrite (norm_index_id _ 0) by lia.
  apply prefix_take.
Qed.

Lemma read_pdf_stores_extracted_text_witness :
  ∃ texts ctx1 stored,
    pdf_reader world_abc (lit "a.pdf") = Pages texts ∧
    Some {| state := [(lit "notes", VStr (lit "ab" ++ TRUNCATED))] |}
      = Some ctx1 ∧
    dict_get (state ctx1) (lit "notes") = Some (VStr stored) ∧
    (stored = full_content_of texts
     ∨ (2 < len (full_content_of texts) ∧
        ∃ p, p `prefix_of` full_content_of texts ∧
             stored = p ++ TRUNCATED)).
Proof.
  apply (read_pdf_stores_extracted_text world_abc (lit "a.pdf") (lit "notes")
           2 (Some {| state := [] |}) _ _ eq_refl eq_refl).
Defined.

(** A search over given keys reads the state at those keys only. *)
Lemma search_keys_reads_keys st1 st2 q max_snippets snippet_radius keys acc :
  (∀ key, key ∈ keys → dict_get st1 key = dict_get st2 key) →
  search_keys st1 q max_snippets snippet_radius keys acc
    = search_keys st2 q max_snippets snippet_radius keys acc.
Proof.
  revert acc. induction keys as [|key rest IH]; intros acc Hkeys; [done|].
  cbn [search_keys]. rewrite (Hkeys key) by (apply elem_of_cons; by left).
  assert (∀ key, key ∈ rest → dict_get st1 key = dict_get st2 key) as Hrest.
  { intros k Hk. apply Hkeys, elem_of_cons. by right. }
  destruct (default _ _) as [[|c t]| | |]; try by apply IH.
  destruct (scan _ _ _ _ _ _ _ _); simpl; [by apply IH | done].
Qed.

(** X18. A search over an explicit, non-empty list of keys depends on the
    state through the entries of those keys only: two states that agree on
    the listed keys give the same result, whatever else they hold. *)
Theorem search_memory_reads_listed_keys query k ks max_snippets
    snippet_radius ctx1 ctx2 :
  (∀ key, key ∈ k :: ks →
          dict_get (state ctx1) key = dict_get (state ctx2) key) →
  search_memory query (Some (k :: ks)) max_snippets snippet_radius
    (Some ctx1)
  = search_memory query (Some (k :: ks)) max_snippets snippet_radius
      (Some ctx2).
Proof.
  intros Hkeys. unfold search_memory.
  destruct (strip _) as [|c q]; [done|]. simpl keys_to_search.
  by rewrite (search_keys_reads_keys (state ctx1) (state ctx2)).
Qed.

Lemma search_memory_reads_listed_keys_witness :
  search_memory (Some (lit "ab")) (Some [lit "a"]) 5 1 (Some sample_context)
  = search_memory (Some (lit "ab")) (Some [lit "a"]) 5 1
      (Some {| state := [(lit "z", VStr (lit "ab"));
                         (lit "a", VStr (lit "ababxab"))] |}).
Proof.
  apply (search_memory_reads_listed_keys (Some (lit "ab")) (lit "a") [] 5 1
           sample_context).
  intros key ->%list_elem_of_singleton. reflexivity.
Defined.

(** X19. With the default keys (no list of keys, or an empty one) no key is
    reported twice, the keys of the state being distinct as the keys of a
    dictionary are. *)
Theorem search_memory_default_keys_once query memory_keys max_snippets
    snippet_radius ctx q ms :
  memory_keys = None ∨ memory_keys = Some [] →
  NoDup (fst <$> state ctx) →
  search_memory query memory_keys max_snippets snippet_radius (Some ctx)
    = Some (SearchSuccess q ms) →
  NoDup (memory_key <$> ms).
Proof.
  intros Hdef Hnd (_ & _ & Hk)%search_memory_success_inv.
  apply search_keys_new in Hk as (new & -> & Hsub & _). simpl.
  eapply sublist_NoDup; [|exact Hsub].
  assert (keys_to_search memory_keys (state ctx) = text_keys (state ctx))
    as -> by by destruct Hdef as [-> | ->].
  eapply sublist_NoDup; [exact Hnd|].
  unfold text_keys. apply fmap_sublist, sublist_filter.
Qed.

Lemma search_memory_default_keys_once_witness :
  NoDup (memory_key <$> [sample_entry]).
Proof.
  apply (search_memory_default_keys_once (Some (lit " ab ")) None 5 1
           sample_context (lit "ab") [sample_entry]).
  - by left.
  - by apply (bool_decide_unpack _).
  - reflexivity.
Defined.

Lemma lstrip_trimmed s :
  (∀ c, head s = Some c → isspace c = false) → lstrip s = s.
Proof.
  destruct s as [|c s]; [done|]. simpl. intros H. by rewrite (H c).
Qed.

Lemma strip_trimmed s : trimmed s → strip s = s.
Proof.
  intros [Hh Hl]. unfold strip, rstrip.
  rewrite (lstrip_trimmed s Hh).
  rewrite lstrip_trimmed; [by rewrite reverse_involutive|].
  by rewrite head_reverse.
Qed.

(** X20. White space around the query never changes the result: a query
    and the same query stripped give the same call, and no query at all
    is the empty query. *)
Theorem search_memory_ignores_outer_whitespace given memory_keys
    max_snippets snippet_radius tool_context :
  search_memory (Some given) memory_keys max_snippets snippet_radius
    tool_context
  = search_memory (Some (strip given)) memory_keys max_snippets
      snippet_radius tool_context ∧
  search_memory None memory_keys max_snippets snippet_radius tool_context
  = search_memory (Some []) memory_keys max_snippets snippet_radius
      tool_context.
Proof.
  split; [|done]. unfold search_memory.
  destruct tool_context as [ctx|]; [|done].
  rewrite !or_str_some.
  destruct (strip_decompose given) as (_ & _ & _ & _ & _ & Htrim).
  by rewrite (strip_trimmed _ Htrim).
Qed.

(** ** More on the session set-up *)

(** X21. After the set-up of [main] the session exists: looking it up in
    the service the set-up leaves finds the very session the set-up
    returned, so that the run that follows finds it. *)
Theorem ensure_session_found `{SessionService Svc} (svc : Svc)
    (k : SessionId) :
  get_session (ensure_session svc k).1 k = Some (ensure_session svc k).2.
Proof.
  unfold ensure_session. destruct (get_session svc k) eqn:Hg; simpl.
  - exact Hg.
  - apply get_after_create.
Qed.

(** ** The ranges reported for a key *)

(** Among entries whose keys are pairwise distinct, at most one names a
    given key. *)
Lemma filter_key_once (ms : list Match) k :
  NoDup (memory_key <$> ms) →
  filter (λ m, memory_key m = k) ms = []
  ∨ ∃ m, m ∈ ms ∧ filter (λ m, memory_key m = k) ms = [m].
Proof.
  induction ms as [|m ms IH]; [by left|].
  rewrite fmap_cons, NoDup_cons. intros [Hm Hnd]. rewrite filter_cons.
  destruct (IH Hnd) as [Hnone|(m' & Hin & Hone)].
  - case_decide; [|by left]. right. exists m.
    split; [apply elem_of_cons; by left | by rewrite Hnone].
  - case_decide as Hk.
    + destruct Hm. rewrite Hk. apply list_elem_of_fmap. exists m'.
      split; [|done].
      assert (m' ∈ filter (λ m, memory_key m = k) ms) as Hf
        by (rewrite Hone; apply elem_of_cons; by left).
      by apply list_elem_of_filter in Hf as [-> _].
    + right. exists m'. split; [apply elem_of_cons; by right | done].
Qed.

(** C1, as the code has it. For every call, [search_memory] returns, and
    - in every entry of the matches (an entry is what the scan of one
      listed key collects) the offset ranges [start, end) are pairwise
      disjoint and in strictly increasing order, and entries exist only
      for a query that is not empty after stripping;
    - when no key stands twice among the keys searched, the ranges the
      result reports for any key are those of a single entry, hence
      pairwise disjoint and in strictly increasing order. *)
Theorem search_memory_ranges_per_key query memory_keys max_snippets
    snippet_radius tool_context :
  ∃ r, search_memory query memory_keys max_snippets snippet_radius
         tool_context = Some r ∧
    (∀ m, m ∈ matches_of r →
       strip (or_str query []) ≠ [] ∧ left_to_right (snippets m)) ∧
    (∀ ctx, tool_context = Some ctx →
       NoDup (keys_to_search memory_keys (state ctx)) →
       ∀ k, left_to_right (ranges_of_key k (matches_of r))).
Proof.
  destruct (search_memory_ranges_left_to_right query memory_keys
              max_snippets snippet_radius tool_context) as (r & Hr & Hent).
  exists r. do 2 (split; [done|]). intros ctx -> Hnd k.
  assert (NoDup (memory_key <$> matches_of r)) as Hkeys.
  { destruct r as [e|q ms]; [apply NoDup_nil_2|].
    apply search_memory_success_inv in Hr as (_ & _ & Hk).
    apply search_keys_new in Hk as (new & -> & Hsub & _).
    by eapply sublist_NoDup. }
  unfold ranges_of_key.
  destruct (filter_key_once _ k Hkeys) as [->|(m & Hm & ->)].
  - apply left_to_right_nil.
  - simpl. rewrite app_nil_r. by apply Hent.
Qed.

Lemma search_memory_ranges_per_key_witness :
  left_to_right (ranges_of_key (lit "a") [sample_entry]).
Proof.
  destruct (search_memory_ranges_per_key (Some (lit " ab ")) None 5 1
              (Some sample_context)) as (r & Hr & _ & Hkey).
  injection Hr as <-.
  apply (Hkey sample_context eq_refl).
  by apply (bool_decide_unpack _).
Defined.

(** C1, as stated, fails when a key is listed twice. With the state
    [{"k": "a"}], the query ["a"] and [memory_keys = ["k", "k"]], the loop
    over the keys scans the text of ["k"] once for each time it is listed
    and reports two entries for it, each with the range [0, 1): the ranges
    returned for the key ["k"] overlap and are not strictly increasing. *)
Lemma search_memory_key_listed_twice :
  search_memory (Some (lit "a")) (Some [lit "k"; lit "k"]) 5 80
      (Some {| state := [(lit "k", VStr (lit "a"))] |})
    = Some (SearchSuccess (lit "a") [entry_k; entry_k]) ∧
  ranges_of_key (lit "k") [entry_k; entry_k]
    = [{| snip_text := lit "a"; snip_start := 0; snip_end := 1 |};
       {| snip_text := lit "a"; snip_start := 0; snip_end := 1 |}] ∧
  ¬ left_to_right (ranges_of_key (lit "k") [entry_k; entry_k]).
Proof.
  split; [reflexivity|]. split; [reflexivity|].
  intros H.
  destruct (H 0%nat 1%nat _ _ ltac:(lia) eq_refl eq_refl) as [Hlt _].
  simpl in Hlt. lia.
Qed.
